(** * A shallow embedding of package [errors] (errors.go)

    The package wraps an underlying failure with a message, a [Kind] and
    optional [MetaData], forming a chain of causes.  This file embeds the
    data types and the functions [E], [Msg], [Error], [Cause],
    [MarshalJSON], [IsKind] and [Kind.String] and proves the properties the
    specification states about them.

    Conventions of the embedding:
    - a Go [string] is a [String.string] (a sequence of bytes);
    - [Kind] is [uint8], embedded as a [Z] in [0, 256);
    - a Go map is a reference: a [MetaData] value is [None] (the nil map) or
      [Some l], a location in a [heap] of map contents;
    - a run-time panic (nil dereference, method call on a nil interface) is
      the result [None] of a function into [option]. *)

From Stdlib Require Import ZArith String Ascii DecimalString.
From stdpp Require Import base option list gmap strings.

Local Open Scope string_scope.
Local Open Scope Z_scope.
Local Open Scope list_scope.
Local Open Scope stdpp_scope.

(** ** Kind *)

(** [type Kind uint8] *)
Definition Kind := Z.

Definition Unknown : Kind := 0.
Definition Invalid : Kind := 1.
Definition Permission : Kind := 2.
Definition IO : Kind := 3.
Definition Duplicated : Kind := 4.
Definition NotExist : Kind := 5.
Definition Private : Kind := 6.
Definition Internal : Kind := 7.
Definition Decrypt : Kind := 8.
Definition Unmarshal : Kind := 9.
Definition Transient : Kind := 10.
Definition Unsupported : Kind := 11.
Definition NotAcceptable : Kind := 12.

(** [func (k Kind) String() string] *)
Definition Kind_String (k : Kind) : string :=
  if Z.eqb k Unknown then "Unknown error"
  else if Z.eqb k Invalid then "invalid operation"
  else if Z.eqb k Permission then "permission denied"
  else if Z.eqb k IO then "I/O error"
  else if Z.eqb k Duplicated then "item already exists"
  else if Z.eqb k NotExist then "item does not exist"
  else if Z.eqb k Private then "information withheld"
  else if Z.eqb k Internal then "internal error"
  else if Z.eqb k Decrypt then "invalid encryption"
  else if Z.eqb k Unmarshal then "invalid data"
  else if Z.eqb k Transient then "transient error"
  else if Z.eqb k Unsupported then "unsupported"
  else if Z.eqb k NotAcceptable then "not accepted"
  else "unknown error kind".

(** The status codes of [net/http] that the package names. *)
Definition StatusBadRequest : Z := 400.
Definition StatusUnauthorized : Z := 401.
Definition StatusNotFound : Z := 404.
Definition StatusNotAcceptable : Z := 406.
Definition StatusConflict : Z := 409.
Definition StatusUnsupportedMediaType : Z := 415.
Definition StatusInternalServerError : Z := 500.
Definition StatusServiceUnavailable : Z := 503.

(** [func (k Kind) StatusCode() int]; the cases for [Unknown], [Internal] and
    [IO] are empty and, like every other value, reach the final return. *)
Definition Kind_StatusCode (k : Kind) : Z :=
  if (k =? Invalid) || (k =? Decrypt) || (k =? Unmarshal) then StatusBadRequest
  else if (k =? Permission) || (k =? Private) then StatusUnauthorized
  else if k =? Transient then StatusServiceUnavailable
  else if k =? NotExist then StatusNotFound
  else if k =? Unsupported then StatusUnsupportedMediaType
  else if k =? NotAcceptable then StatusNotAcceptable
  else if k =? Duplicated then StatusConflict
  else StatusInternalServerError.

(** ** MetaData and the heap of maps *)

(** A location of a map in the heap. *)
Definition loc := nat.

(** The dynamic values stored in a [MetaData] ([interface{}]).  The package
    never looks into them, it only copies them from one map to another.
    [VMap l] is a value that is itself a map (a reference, like every Go
    map); [VOther id] stands for every value of another dynamic type (a
    float, a slice, a pointer, a channel, a value with methods of its own),
    told apart by [id] and otherwise unknown. *)
Inductive value : Type :=
| VNil
| VBool (b : bool)
| VInt (n : Z)
| VString (s : string)
| VMap (l : loc)
| VOther (id : N).

#[global] Instance value_eq_dec : EqDecision value.
Proof. solve_decision. Defined.

(** The contents of the maps allocated so far; the heap only grows. *)
Definition heap := list (gmap string value).

(** [type MetaData map[string]interface{}]: [None] is the nil map. *)
Definition MetaData := option loc.

(** [make(MetaData)] followed by filling it: a fresh location. *)
Definition heap_alloc (h : heap) (m : gmap string value) : heap * loc :=
  (h ++ [m], length h).

(** [m[k] = v] on a non-nil map. *)
Definition heap_store (h : heap) (l : loc) (k : string) (v : value) : heap :=
  match h !! l with
  | Some m => <[l := <[k := v]> m]> h
  | None => h
  end.

(** ** Errors *)

(** The values of interface type [error] and the record [Error].
    - [nil_error] is the nil interface value;
    - [errorString s] is [&errorString{s}], what [New] and [Errorf] return;
    - [foreign msg] is a non-nil error of another package that renders as
      [msg] and has no method [Cause];
    - [foreign_causer msg c] is a non-nil error of another package that
      renders as [msg] and has a method [Cause() error] returning [c];
    - [nil_ptr_Error] is the nil pointer of type [*Error] stored in an
      interface (a typed nil);
    - [ptr_Error e] is a non-nil [*Error] pointing to the record [e].
    Values are finite trees, so a chain of causes is finite and acyclic.
    Records are never mutated after [E] returns them, so a pointer to a
    record is embedded as the record it points to. *)
Inductive error : Type :=
| nil_error
| errorString (s : string)
| foreign (msg : string)
| foreign_causer (msg : string) (c : error)
| nil_ptr_Error
| ptr_Error (e : Error)
with Error : Type :=
| mkError (Kind_ : Kind) (cause_ : error) (s_ : string) (Meta_ : MetaData).

(** The fields [Kind], [cause], [s] and [Meta] of the struct [Error]. *)
Definition e_Kind (e : Error) : Kind := let 'mkError k _ _ _ := e in k.
Definition e_cause (e : Error) : error := let 'mkError _ c _ _ := e in c.
Definition e_s (e : Error) : string := let 'mkError _ _ s _ := e in s.
Definition e_Meta (e : Error) : MetaData := let 'mkError _ _ _ m := e in m.

Definition set_Kind (e : Error) (k : Kind) : Error :=
  mkError k (e_cause e) (e_s e) (e_Meta e).
Definition set_cause (e : Error) (c : error) : Error :=
  mkError (e_Kind e) c (e_s e) (e_Meta e).
Definition set_s (e : Error) (s : string) : Error :=
  mkError (e_Kind e) (e_cause e) s (e_Meta e).
Definition set_Meta (e : Error) (m : MetaData) : Error :=
  mkError (e_Kind e) (e_cause e) (e_s e) m.

(** [&Error{}]: every field has its zero value. *)
Definition zero_Error : Error := mkError Unknown nil_error "" None.

(** [func New(text string) error] *)
Definition New (text : string) : error := errorString text.

(** [func (e *Error) Error() string], together with the [Error] method of
    the other implementations, dispatched on the dynamic type.  Calling the
    method on the nil interface or reading [e.s] through a nil pointer
    panics. *)
Fixpoint error_Error (err : error) : option string :=
  match err with
  | nil_error => None
  | errorString s => Some s
  | foreign msg => Some msg
  | foreign_causer msg _ => Some msg
  | nil_ptr_Error => None
  | ptr_Error (mkError _ cause s _) =>
      let str := if String.eqb s "" then s else s +:+ ": " in
      c ← error_Error cause; Some (str +:+ c)
  end.

(** The method on a record. *)
Definition Error_Error (e : Error) : option string :=
  error_Error (ptr_Error e).

(** ** Strings *)

(** [strings.Index(s, substr)]: the index of the first instance of [substr]
    in [s], or [-1]. *)
Fixpoint Index_from (i : Z) (s substr : string) : Z :=
  if String.prefix substr s then i
  else match s with
       | EmptyString => -1
       | String _ s' => Index_from (i + 1) s' substr
       end.

Definition strings_Index (s substr : string) : Z := Index_from 0 s substr.

(** [len(s)] *)
Definition len (s : string) : Z := Z.of_nat (String.length s).

(** [s[:pos]]; the slice expression panics when [pos] is out of range. *)
Definition slice_to (s : string) (pos : Z) : option string :=
  if (0 <=? pos) && (pos <=? len s)
  then Some (String.substring 0 (Z.to_nat pos) s)
  else None.

(** [func (e *Error) Msg() string] *)
Definition Msg (e : Error) : option string :=
  str ← Error_Error e;
  let pos := strings_Index str ":" in
  let pos := if pos =? -1 then len str else pos in
  slice_to str pos.

(** [func (e *Error) Cause() error] *)
Definition Error_Cause (e : Error) : error := e_cause e.

(** [func (e *Error) StatusCode() int] *)
Definition Error_StatusCode (e : Error) : Z := Kind_StatusCode (e_Kind e).

(** ** The builder E *)

(** An argument of [E], by its dynamic type.  A [map[string]interface{}] is
    only iterated over by [E], so it is given by its contents at the time of
    the call ([None] is the nil map); a [MetaData] is stored as it is, so it
    is given by reference.  An argument of static type [error] that is nil is
    the nil interface value, [arg_error nil_error].  [arg_other] stands for
    every other dynamic type. *)
Inductive arg : Type :=
| arg_string (opt : string)
| arg_Kind (opt : Kind)
| arg_MetaData (opt : MetaData)
| arg_map (opt : option (gmap string value))
| arg_error (opt : error)
| arg_other.

(** [meta := make(MetaData); for k, v := range opt { meta[k] = v }] *)
Definition copy_map (opt : option (gmap string value)) : gmap string value :=
  match opt with
  | None => ∅
  | Some m => map_fold (λ k v meta, <[k := v]> meta) ∅ m
  end.

(** One iteration of the loop of [E]: the type switch on [arg]. *)
Definition E_arg (st : heap * Error) (a : arg) : option (heap * Error) :=
  let '(h, e) := st in
  match a with
  | arg_string opt => Some (h, set_s e opt)
  | arg_Kind opt => Some (h, set_Kind e opt)
  | arg_MetaData opt => Some (h, set_Meta e opt)
  | arg_map opt =>
      let '(h', meta) := heap_alloc h (copy_map opt) in
      Some (h', set_Meta e (Some meta))
  | arg_error (ptr_Error opt) =>
      let copy := opt in Some (h, set_cause e (ptr_Error copy))
  | arg_error nil_ptr_Error => None
  | arg_error nil_error => Some (h, e)
  | arg_error opt => Some (h, set_cause e opt)
  | arg_other => Some (h, e)
  end.

(** [for _, arg := range args { ... }] *)
Fixpoint E_scan (st : heap * Error) (args : list arg) : option (heap * Error) :=
  match args with
  | [] => Some st
  | a :: args' => st' ← E_arg st a; E_scan st' args'
  end.

(** The part of [E] after the loop, on the record [e] under construction. *)
Definition E_fill (e : Error) : option error :=
  match e_cause e with
  | nil_error => Some nil_error
  | ptr_Error err =>
      let e := if e_Kind e =? Unknown then set_Kind e (e_Kind err) else e in
      let e := if e_Meta e is None then set_Meta e (e_Meta err) else e in
      Some (ptr_Error e)
  | nil_ptr_Error =>
      if e_Kind e =? Unknown then None
      else if e_Meta e is None then None
      else Some (ptr_Error e)
  | _ => Some (ptr_Error e)
  end.

(** [func E(args ...interface{}) error], in heap [h]. *)
Definition E (h : heap) (args : list arg) : option (heap * error) :=
  '(h', e) ← E_scan (h, zero_Error) args;
  r ← E_fill e;
  Some (h', r).

(** ** Classification accessors *)

(** [func IsKind(err error, kind Kind) bool] *)
Definition IsKind (err : error) (kind : Kind) : option bool :=
  match err with
  | ptr_Error e => Some (e_Kind e =? kind)
  | nil_ptr_Error => None
  | _ => Some false
  end.

(** Whether the dynamic type of [err] has a method [Cause() error]: the
    type assertion [err.(causer)]. *)
Definition is_causer (err : error) : bool :=
  match err with
  | foreign_causer _ _ | nil_ptr_Error | ptr_Error _ => true
  | _ => false
  end.

(** [cause.Cause()] for a value that passed the type assertion. *)
Definition call_Cause (err : error) : option error :=
  match err with
  | foreign_causer _ c => Some c
  | ptr_Error e => Some (Error_Cause e)
  | _ => None
  end.

(** [func Cause(err error) error] *)
Fixpoint Cause (err : error) : option error :=
  match err with
  | nil_error => Some err
  | foreign_causer _ c => Cause c
  | ptr_Error (mkError _ c _ _) => Cause c
  | nil_ptr_Error => None
  | errorString _ | foreign _ => Some err
  end.

(** ** Serialization

    [MarshalJSON] builds an anonymous struct and hands it to [json.Marshal]
    of the standard library, which is not part of the package.  What the
    encoder does with the struct itself is embedded here: it writes an
    object with the fields in declaration order, each as its quoted name, a
    colon and its value, leaves out a field tagged [omitempty] whose value is
    empty, and stops at the first value it cannot encode.  How it writes a
    string and a metadata map is left open: both are parameters, so that
    nothing below depends on how a release of Go escapes a string, orders
    the keys of a map or treats a value it finds in one. *)

(** What a call that returns a value and an [error] can do: return the
    value, return an error, or panic. *)
Inductive outcome (A : Type) : Type :=
| returns (a : A)
| fails
| panics.
Arguments returns {A} a.
Arguments fails {A}.
Arguments panics {A}.

#[global] Instance outcome_bind : MBind outcome := λ A B f o,
  match o with
  | returns a => f a
  | fails => fails
  | panics => panics
  end.

(** A value of one of the field types of the struct. *)
Inductive jvalue : Type :=
| JString (s : string)
| JKind (k : Kind)
| JMetaData (m : option (gmap string value)).

(** A field: its name in the tag, whether the tag has [omitempty], and its
    value. *)
Definition jfield : Type := string * bool * jvalue.

Definition json_quote : string := String (ascii_of_N 34) "".

(** A [uint8] is written in decimal. *)
Definition json_int (n : Z) : string := NilEmpty.string_of_int (Z.to_int n).

(** [strings.Join(elems, sep)] *)
Fixpoint strings_Join (elems : list string) (sep : string) : string :=
  match elems with
  | [] => ""
  | [x] => x
  | x :: rest => x +:+ sep +:+ strings_Join rest sep
  end.

(** The encoder's test for [omitempty]: a map or a string of length zero, a
    number equal to zero. *)
Definition isEmptyValue (v : jvalue) : bool :=
  match v with
  | JString s => String.eqb s ""
  | JKind k => k =? 0
  | JMetaData None => true
  | JMetaData (Some m) => bool_decide (size m = 0%nat)
  end.

(** Reading a [MetaData] through the heap; a location outside the heap does
    not occur in a program and gives no result. *)
Definition heap_read (h : heap) (m : MetaData) : option (option (gmap string value)) :=
  match m with
  | None => Some None
  | Some l => Some <$> h !! l
  end.

Section encoder.

(** The text the encoder writes for a Go string; it never fails. *)
Variable json_text : string → string.

(** What the encoder does on a map that is not nil, in a heap: the text it
    writes, or an error (a value of an unsupported type), or a panic (a
    value whose own [MarshalJSON] panics). *)
Variable json_meta : heap → gmap string value → outcome string.

Definition json_jvalue (h : heap) (v : jvalue) : outcome string :=
  match v with
  | JString s => returns (json_text s)
  | JKind k => returns (json_int k)
  | JMetaData None => returns "null"
  | JMetaData (Some m) => json_meta h m
  end.

(** One field of the struct: nothing when it is left out.  The names of the
    fields of this struct are plain words, which the encoder writes between
    quotation marks as they are. *)
Definition json_field (h : heap) (f : jfield) : option (outcome string) :=
  let '(name, omitempty, v) := f in
  if omitempty && isEmptyValue v then None
  else Some (b ← json_jvalue h v;
             returns (json_quote +:+ name +:+ json_quote +:+ ":" +:+ b)).

(** The fields in order, up to the first that cannot be encoded. *)
Fixpoint json_fields (h : heap) (fields : list jfield) : outcome (list string) :=
  match fields with
  | [] => returns []
  | f :: rest =>
      match json_field h f with
      | None => json_fields h rest
      | Some o => b ← o; bs ← json_fields h rest; returns (b :: bs)
      end
  end.

(** [json.Marshal] of a struct value. *)
Definition json_Marshal (h : heap) (fields : list jfield) : outcome string :=
  bs ← json_fields h fields;
  returns ("{" +:+ strings_Join bs "," +:+ "}").

(** [func (e *Error) MarshalJSON() ([]byte, error)]: the struct literal
    calls [e.Msg()] before the encoder runs. *)
Definition MarshalJSON (h : heap) (e : Error) : outcome string :=
  match Msg e, heap_read h (e_Meta e) with
  | Some msg, Some detail =>
      json_Marshal h
        [("detail", true, JMetaData detail);
         ("type", false, JString (Kind_String (e_Kind e)));
         ("error", false, JString msg);
         ("code", false, JKind (e_Kind e))]
  | _, _ => panics
  end.

End encoder.

(** [MetaData{...}]: a map literal allocates a map. *)
Definition new_MetaData (h : heap) (m : gmap string value) : heap * MetaData :=
  let '(h', l) := heap_alloc h m in (h', Some l).

(** * Specification-level definitions

    The functions below are not in the source: they say, in terms of the
    data alone, what the theorems state about the source's functions. *)

(** The short message as the specification words it: the chained message
    cut at, and excluding, the first [": "]; the whole chained message when
    there is none. *)
Definition Msg_spec (e : Error) : option string :=
  str ← Error_Error e;
  let pos := strings_Index str ": " in
  let pos := if pos =? -1 then len str else pos in
  slice_to str pos.

(** The bytes of a string before its first colon; the whole string when it
    has none. *)
Fixpoint before_colon (s : string) : string :=
  match s with
  | EmptyString => ""
  | String c s' => if Ascii.eqb c ":" then "" else String c (before_colon s')
  end.

Fixpoint has_colon (s : string) : bool :=
  match s with
  | EmptyString => false
  | String c s' => if Ascii.eqb c ":" then true else has_colon s'
  end.

(** The non-empty messages of the records of a chain, outermost first. *)
Fixpoint link_messages (err : error) : list string :=
  match err with
  | ptr_Error (mkError _ c s _) =>
      (if String.eqb s "" then [] else [s]) ++ link_messages c
  | _ => []
  end.

(** The native rendering of the value the records of a chain end in. *)
Fixpoint leaf_Error (err : error) : option string :=
  match err with
  | ptr_Error (mkError _ c _ _) => leaf_Error c
  | _ => error_Error err
  end.

(** The arguments of each shape, in the order given.  A nil interface value
    has no dynamic type and is of no shape. *)
Definition strings_of (args : list arg) : list string :=
  omap (λ a, if a is arg_string s then Some s else None) args.

Definition kinds_of (args : list arg) : list Kind :=
  omap (λ a, if a is arg_Kind k then Some k else None) args.

Definition errors_of (args : list arg) : list error :=
  omap (λ a, match a with
             | arg_error nil_error => None
             | arg_error e => Some e
             | _ => None
             end) args.

Inductive meta_arg : Type :=
| by_ref (m : MetaData)
| by_copy (c : option (gmap string value)).

Definition metas_of (args : list arg) : list meta_arg :=
  omap (λ a, match a with
             | arg_MetaData m => Some (by_ref m)
             | arg_map c => Some (by_copy c)
             | _ => None
             end) args.

Definition maps_of (args : list arg) : list (option (gmap string value)) :=
  omap (λ a, if a is arg_map c then Some c else None) args.

(** The last argument of each shape, with the zero value when there is
    none. *)
Definition last_string (args : list arg) : string :=
  default "" (last (strings_of args)).
Definition last_Kind (args : list arg) : Kind :=
  default Unknown (last (kinds_of args)).
Definition last_error (args : list arg) : error :=
  default nil_error (last (errors_of args)).

(** The kind and the metadata of the record a cause points to; the zero
    value for a cause that is not a record. *)
Definition wrapped_Kind (c : error) : Kind :=
  if c is ptr_Error w then e_Kind w else Unknown.
Definition wrapped_Meta (c : error) : MetaData :=
  if c is ptr_Error w then e_Meta w else None.

(** An argument that one of the two error cases of the type switch takes. *)
Definition is_error_shaped (a : arg) : bool :=
  match a with
  | arg_error nil_error => false
  | arg_error _ => true
  | _ => false
  end.

(** An error that is not nil and not of type [*Error]. *)
Definition is_plain (err : error) : bool :=
  match err with
  | errorString _ | foreign _ | foreign_causer _ _ => true
  | _ => false
  end.

(** One step of unwrapping: [a] has the method [Cause] and the call returns
    [b]. *)
Definition cause_step (a b : error) : Prop :=
  is_causer a = true ∧ call_Cause a = Some b.

(** Straight quotation marks inside the expected outputs below are written
    as apostrophes and put back by [dq]. *)
Fixpoint dq (s : string) : string :=
  match s with
  | EmptyString => ""
  | String c s' =>
      String (if (N_of_ascii c =? 39)%N then ascii_of_N 34 else c) (dq s')
  end.

(** The text of the field [detail] with the comma after it, for an encoder
    of maps [json_meta]: nothing when the metadata is the nil map or an empty
    map, and otherwise whatever the encoder does on the map. *)
Definition detail_text (json_meta : heap → gmap string value → outcome string)
    (h : heap) (detail : option (gmap string value)) : outcome string :=
  match detail with
  | None => returns ""
  | Some m =>
      if decide (m = ∅) then returns ""
      else b ← json_meta h m; returns (dq "'detail':" +:+ b +:+ ",")
  end.

(** Whether a call returned, returned an error or panicked, without the
    value. *)
Definition shape {A : Type} (o : outcome A) : outcome unit :=
  _ ← o; returns tt.

(** A string of bytes that every release of the encoder writes as they are:
    printable ASCII other than the quotation mark, the reverse solidus and
    the three characters escaped for HTML. *)
Definition plain_byte (c : ascii) : bool :=
  let n := N_of_ascii c in
  (32 <=? n)%N && (n <=? 126)%N &&
  negb ((n =? 34)%N || (n =? 92)%N || (n =? 60)%N || (n =? 62)%N || (n =? 38)%N).

Definition plain (s : string) : bool :=
  forallb plain_byte (list_ascii_of_string s).

(** Two encoders to run the examples with: strings written between
    quotation marks, which is what the encoder does on plain strings, and
    the one map of the package's test written as the test expects it, every
    other map refused. *)
Definition quoted_text (s : string) : string :=
  json_quote +:+ s +:+ json_quote.

Definition test_meta (h : heap) (m : gmap string value) : outcome string :=
  if decide (m = {[ "foo" := VString "bar" ]})
  then returns (dq "{'foo':'bar'}")
  else fails.

(** The map that a value of a metadata map refers to, when the value under
    [key] is itself a map. *)
Definition nested_read (h : heap) (m : MetaData) (key : string) :
    option (gmap string value) :=
  match heap_read h m with
  | Some (Some c) =>
      match c !! key with
      | Some (VMap l) => h !! l
      | _ => None
      end
  | _ => None
  end.

(** The field of the record an argument is stored in: 0 for the message,
    1 for the kind, 2 for the metadata, 3 for the cause; none for an argument
    the type switch has no case for. *)
Definition field_of (a : arg) : option nat :=
  match a with
  | arg_string _ => Some 0%nat
  | arg_Kind _ => Some 1%nat
  | arg_MetaData _ | arg_map _ => Some 2%nat
  | arg_error nil_error => None
  | arg_error _ => Some 3%nat
  | arg_other => None
  end.

(** An argument that some case of the type switch takes. *)
Definition recognised (a : arg) : bool :=
  if field_of a is Some _ then true else false.

(** Whether two arguments are stored in the same field. *)
Definition same_field (a b : arg) : bool :=
  match field_of a, field_of b with
  | Some i, Some j => Nat.eqb i j
  | _, _ => false
  end.

(** An error whose method [Error] can be called: its chain of records ends
    in a value that is neither the nil interface nor a typed nil. *)
Fixpoint renders (err : error) : bool :=
  match err with
  | nil_error | nil_ptr_Error => false
  | ptr_Error (mkError _ c _ _) => renders c
  | _ => true
  end.

(** An argument that is no error, a nil interface value, or an error that
    renders. *)
Definition arg_renders (a : arg) : bool :=
  match a with
  | arg_error nil_error => true
  | arg_error e => renders e
  | _ => true
  end.

(** A metadata value that is nil or a map of the heap. *)
Definition meta_live (h : heap) (m : MetaData) : bool :=
  match m with
  | None => true
  | Some l => bool_decide (l < length h)%nat
  end.

(** An argument whose metadata, given or carried by a record, is live. *)
Definition arg_live (h : heap) (a : arg) : bool :=
  match a with
  | arg_MetaData m => meta_live h m
  | arg_error (ptr_Error w) => meta_live h (e_Meta w)
  | _ => true
  end.

(** * Properties *)

(** ** The cases of the package's tests, run on the embedding *)

Example test_E_only_error :
  E [] [arg_error (New "foo")]
  = Some ([], ptr_Error (mkError Unknown (New "foo") "" None)).
Proof. reflexivity. Qed.

Example test_E_error_msg_kind :
  E [] [arg_error (New "foo"); arg_string "network latency"; arg_Kind IO]
  = Some ([], ptr_Error (mkError IO (New "foo") "network latency" None)).
Proof. reflexivity. Qed.

Example test_E_underlying_Error :
  let inner := mkError IO (New "foo") "network latency" None in
  E [] [arg_string "geting foo from db"; arg_error (ptr_Error inner)]
  = Some ([], ptr_Error (mkError IO (ptr_Error inner) "geting foo from db" None)).
Proof. reflexivity. Qed.

Example test_E_underlying_Meta :
  let '(h, meta) := new_MetaData [] {[ "1" := VInt 1 ]} in
  ('(h1, inner) ← E h [arg_string "network latency"; arg_Kind IO;
                       arg_error (New "foo"); arg_MetaData meta];
   '(h2, outer) ← E h1 [arg_string "geting foo from db"; arg_error inner];
   Some (h2, outer))
  = Some (h, ptr_Error (mkError IO
                          (ptr_Error (mkError IO (New "foo") "network latency" meta))
                          "geting foo from db" meta)).
Proof. reflexivity. Qed.

Example test_E_nil_error :
  E [] [arg_string "network latency"; arg_Kind IO] = Some ([], nil_error).
Proof. reflexivity. Qed.

Example test_Msg_simple :
  Msg (mkError Unknown (New "foo") "try to get foo" None) = Some "try to get foo".
Proof. reflexivity. Qed.

Example test_Msg_no_description :
  Msg (mkError Unknown (New "foo") "" None) = Some "foo".
Proof. reflexivity. Qed.

Example test_Error_with_msg :
  Error_Error (mkError Unknown (New "foo") "bar" None) = Some "bar: foo".
Proof. reflexivity. Qed.

Example test_IsKind :
  IsKind nil_error Duplicated = Some false ∧
  IsKind (foreign "some error") Duplicated = Some false ∧
  IsKind (ptr_Error (mkError Duplicated (foreign "hi") "hi" None)) Invalid
  = Some false ∧
  IsKind (ptr_Error (mkError Duplicated (foreign "hi") "hi" None)) Duplicated
  = Some true.
Proof. by repeat split. Qed.

(** ** Induction on error values *)

(** The mutual definition of [error] and [Error] gets an induction principle
    that goes through the record under [ptr_Error]. *)
Section error_induction.
Variable P : error → Prop.
Hypothesis H_nil : P nil_error.
Hypothesis H_errorString : ∀ s, P (errorString s).
Hypothesis H_foreign : ∀ msg, P (foreign msg).
Hypothesis H_causer : ∀ msg c, P c → P (foreign_causer msg c).
Hypothesis H_nil_ptr : P nil_ptr_Error.
Hypothesis H_ptr : ∀ k c s m, P c → P (ptr_Error (mkError k c s m)).

Fixpoint error_chain_ind (err : error) : P err :=
  match err with
  | nil_error => H_nil
  | errorString s => H_errorString s
  | foreign msg => H_foreign msg
  | foreign_causer msg c => H_causer msg c (error_chain_ind c)
  | nil_ptr_Error => H_nil_ptr
  | ptr_Error (mkError k c s m) => H_ptr k c s m (error_chain_ind c)
  end.
End error_induction.

(** ** Strings *)

Lemma append_cons (x : ascii) (a s : string) :
  String x a +:+ s = String x (a +:+ s).
Proof. reflexivity. Qed.

Lemma append_assoc (a b c : string) : (a +:+ b) +:+ c = a +:+ (b +:+ c).
Proof.
  induction a as [|x a IH]; [done|]. by rewrite !append_cons, IH.
Qed.

Lemma eqb_empty_spec (s : string) :
  (String.eqb s "" = true ∧ s = "") ∨ (String.eqb s "" = false ∧ s ≠ "").
Proof. destruct s; simpl; [left | right]; done. Qed.

(** ** The chained message *)

Lemma error_Error_unfold (e : Error) :
  Error_Error e =
    c ← error_Error (e_cause e);
    Some (if String.eqb (e_s e) "" then c else e_s e +:+ ": " +:+ c).
Proof.
  destruct e as [k c s m]; unfold Error_Error; simpl.
  destruct (error_Error c) as [r|]; simpl; [|done].
  destruct (eqb_empty_spec s) as [[-> ->]|[-> _]]; [done|].
  cbv zeta iota. by rewrite append_assoc.
Qed.

Lemma error_Error_chain (err : error) :
  error_Error err =
    leaf ← leaf_Error err;
    Some (strings_Join (link_messages err ++ [leaf]) ": ").
Proof.
  induction err as [|s|msg|msg c _| |k c s m IH] using error_chain_ind;
    try done.
  change (error_Error (ptr_Error (mkError k c s m)))
    with (Error_Error (mkError k c s m)).
  rewrite error_Error_unfold; cbn [e_cause e_s leaf_Error link_messages].
  rewrite IH. destruct (leaf_Error c) as [leaf|]; simpl; [|done].
  destruct (eqb_empty_spec s) as [[-> ->]|[-> _]]; simpl; [done|].
  by destruct (link_messages c).
Qed.

(** ** The argument scan of E *)

Lemma copy_map_contents (c : option (gmap string value)) :
  copy_map c = default ∅ c.
Proof.
  destruct c as [m|]; [|done]. simpl.
  induction m as [|k v m Hk Hfold IH] using map_first_key_ind; [done|].
  rewrite map_fold_insert_first_key by done. by rewrite IH.
Qed.

Lemma E_scan_app (st : heap * Error) (l1 l2 : list arg) :
  E_scan st (l1 ++ l2) = E_scan st l1 ≫= λ st', E_scan st' l2.
Proof.
  revert st. induction l1 as [|a l1 IH]; intros st; simpl; [done|].
  destruct (E_arg st a) as [st'|]; simpl; [apply IH | done].
Qed.

Lemma E_scan_snoc (st : heap * Error) (args : list arg) (a : arg) :
  E_scan st (args ++ [a]) = E_scan st args ≫= λ st', E_arg st' a.
Proof.
  rewrite E_scan_app. destruct (E_scan st args) as [st'|]; simpl; [|done].
  by destruct (E_arg st' a).
Qed.

(** What the loop leaves in the record under construction: for each field
    the last argument of its shape, or what the field held before. *)
Lemma E_scan_fields (args : list arg) (h : heap) (e0 : Error) (h' : heap) (e : Error) :
  E_scan (h, e0) args = Some (h', e) →
  e_s e = default (e_s e0) (last (strings_of args)) ∧
  e_Kind e = default (e_Kind e0) (last (kinds_of args)) ∧
  e_cause e = default (e_cause e0) (last (errors_of args)) ∧
  h' = h ++ (copy_map <$> maps_of args) ∧
  match last (metas_of args) with
  | None => e_Meta e = e_Meta e0
  | Some (by_ref m) => e_Meta e = m
  | Some (by_copy c) =>
      ∃ l, e_Meta e = Some l ∧ h' !! l = Some (copy_map c) ∧ h !! l = None
  end.
Proof.
  revert h' e. induction args as [|a args IH] using rev_ind; intros h' e H.
  { simpl in H. simplify_eq. by rewrite app_nil_r. }
  rewrite E_scan_snoc in H.
  destruct (E_scan (h, e0) args) as [[h1 e1]|] eqn:Hs; [|done]. simpl in H.
  destruct (IH _ _ eq_refl) as (Hs1 & Hk & Hc & Hh & Hm). clear IH.
  unfold strings_of, kinds_of, errors_of, metas_of, maps_of in *.
  rewrite !omap_app.
  destruct a as [s|k|m|c|[]|]; simpl in H; simplify_eq; simpl;
    rewrite ?app_nil_r, ?last_snoc; simpl; try done.
  repeat split; try done.
  - by rewrite fmap_app, app_assoc.
  - exists (length (h ++ (copy_map <$> omap (λ a, if a is arg_map c then Some c else None) args))).
    split; [done|]. split.
    + by apply list_lookup_middle.
    + apply lookup_ge_None. rewrite length_app. lia.
Qed.

Lemma E_arg_None_iff (st : heap * Error) (a : arg) :
  E_arg st a = None ↔ a = arg_error nil_ptr_Error.
Proof.
  destruct st as [h e]. split; [|by intros ->].
  by destruct a as [s|k|m|c|[]|].
Qed.

(** The loop faults exactly when some argument is a typed nil [*Error]. *)
Lemma E_scan_None_iff (args : list arg) (st : heap * Error) :
  E_scan st args = None ↔ arg_error nil_ptr_Error ∈ args.
Proof.
  revert st. induction args as [|a args IH]; intros st; simpl.
  { split; [done | by intros ?%elem_of_nil]. }
  rewrite elem_of_cons. destruct (E_arg st a) as [st'|] eqn:Ha; simpl.
  - rewrite IH. split; [by right | intros [<-|]; [|done]].
    by rewrite (proj2 (E_arg_None_iff st _) eq_refl) in Ha.
  - apply E_arg_None_iff in Ha. split; [by left | done].
Qed.

Lemma errors_of_elem (args : list arg) (c : error) :
  c ∈ errors_of args ↔ arg_error c ∈ args ∧ c ≠ nil_error.
Proof.
  unfold errors_of. rewrite list_elem_of_omap. split.
  - intros (a & Ha & Hc). by destruct a as [| | | |[]|]; simplify_eq.
  - intros [Ha Hc]. exists (arg_error c). split; [done|]. by destruct c.
Qed.

Lemma last_error_elem (args : list arg) :
  last_error args = nil_error ∧ errors_of args = [] ∨
  arg_error (last_error args) ∈ args ∧ last_error args ≠ nil_error.
Proof.
  unfold last_error. destruct (last (errors_of args)) as [c|] eqn:Hl; simpl.
  - right. by apply errors_of_elem, last_Some_elem_of.
  - left. by apply last_None in Hl.
Qed.

(** What the part after the loop does to a record whose cause is set. *)
Lemma E_fill_fields (e r : Error) :
  E_fill e = Some (ptr_Error r) →
  e_s r = e_s e ∧ e_cause r = e_cause e ∧
  e_Kind r = (if e_Kind e =? Unknown then wrapped_Kind (e_cause e) else e_Kind e) ∧
  e_Meta r = (if e_Meta e is None then wrapped_Meta (e_cause e) else e_Meta e).
Proof.
  destruct e as [k c s m]. unfold E_fill. simpl.
  destruct c as [| | | | |w]; simpl; intros H;
    destruct (k =? Unknown) eqn:Hk, m; simplify_eq; simpl; rewrite ?Hk; try done;
    apply Z.eqb_eq in Hk; by subst.
Qed.

Lemma E_fill_nil (e : Error) :
  E_fill e = Some nil_error ↔ e_cause e = nil_error.
Proof.
  destruct e as [k c s m]. unfold E_fill. simpl. split.
  - destruct c; try done. by destruct (k =? Unknown), m.
  - by intros ->.
Qed.

Lemma E_inv (h : heap) (args : list arg) (h' : heap) (r : error) :
  E h args = Some (h', r) →
  ∃ e, E_scan (h, zero_Error) args = Some (h', e) ∧ E_fill e = Some r.
Proof.
  unfold E. destruct (E_scan (h, zero_Error) args) as [[h1 e]|]; [|done].
  simpl. destruct (E_fill e) as [r'|] eqn:Hfill; [|done]. simpl.
  intros ?; simplify_eq. by exists e.
Qed.

(** The fields of the record [E] returns, from the last argument of each
    shape. *)
Lemma E_fields (h : heap) (args : list arg) (h' : heap) (r : Error) :
  E h args = Some (h', ptr_Error r) →
  e_s r = last_string args ∧
  e_cause r = last_error args ∧
  e_Kind r = (if last_Kind args =? Unknown
              then wrapped_Kind (last_error args) else last_Kind args) ∧
  h' = h ++ (copy_map <$> maps_of args) ∧
  match last (metas_of args) with
  | None | Some (by_ref None) => e_Meta r = wrapped_Meta (last_error args)
  | Some (by_ref (Some l)) => e_Meta r = Some l
  | Some (by_copy c) =>
      ∃ l, e_Meta r = Some l ∧ h' !! l = Some (default ∅ c) ∧ h !! l = None
  end.
Proof.
  intros (e & Hscan & Hfill)%E_inv.
  apply E_scan_fields in Hscan as (Hs & Hk & Hc & Hh & Hm).
  apply E_fill_fields in Hfill as (Hs' & Hc' & Hk' & Hm').
  unfold last_string, last_Kind, last_error. simpl in *.
  rewrite <- Hs, <- Hk, <- Hc. repeat split; try done.
  destruct (last (metas_of args)) as [[[l|]|c]|].
  - by rewrite Hm', Hm.
  - by rewrite Hm', Hm.
  - destruct Hm as (l & Hl & Hl1 & Hl2). exists l.
    by rewrite Hm', Hl, <- copy_map_contents.
  - by rewrite Hm', Hm.
Qed.

(** ** Nil propagation and faults of E *)

Lemma not_error_shaped_errors_of (args : list arg) :
  forallb (λ a, negb (is_error_shaped a)) args = true → errors_of args = [].
Proof.
  induction args as [|a args IH]; simpl; [done|].
  intros [Ha Hargs]%andb_prop. unfold errors_of in *. simpl.
  rewrite (IH Hargs). by destruct a as [| | | |[]|].
Qed.

Lemma not_error_shaped_no_typed_nil (args : list arg) :
  forallb (λ a, negb (is_error_shaped a)) args = true →
  arg_error nil_ptr_Error ∉ args.
Proof.
  intros H Hin. rewrite forallb_forall in H.
  by apply list_elem_of_In, H in Hin.
Qed.

(** E faults exactly when some argument is a typed nil [*Error]. *)
Lemma E_None_iff (h : heap) (args : list arg) :
  E h args = None ↔ arg_error nil_ptr_Error ∈ args.
Proof.
  split.
  - unfold E. destruct (E_scan (h, zero_Error) args) as [[h' e]|] eqn:Hscan.
    + simpl. destruct (E_fill e) as [r|] eqn:Hfill; [done|]. intros _.
      apply E_scan_fields in Hscan as (_ & _ & Hc & _).
      destruct (last_error_elem args) as [[Hnil _]|[Hin _]].
      * unfold last_error in Hnil. simpl in Hc. rewrite Hnil in Hc.
        apply E_fill_nil in Hc. congruence.
      * unfold last_error in Hin. simpl in Hc. rewrite <- Hc in Hin.
        destruct e as [k c s m]. unfold E_fill in Hfill. simpl in *.
        by destruct c.
    + intros _. by apply E_scan_None_iff in Hscan.
  - intros Hin. unfold E.
    by rewrite (proj2 (E_scan_None_iff args (h, zero_Error)) Hin).
Qed.

(** C3: when no argument is error-shaped (none at all, or only nil
    interface values where an error could stand), E returns nil and not a
    record; the heap holds the copies made of the map arguments. *)
Theorem E_nil_propagation (h : heap) (args : list arg) :
  forallb (λ a, negb (is_error_shaped a)) args = true →
  E h args = Some (h ++ (copy_map <$> maps_of args), nil_error).
Proof.
  intros Hargs.
  destruct (E h args) as [[h' r]|] eqn:HE.
  - apply E_inv in HE as (e & Hscan & Hfill).
    apply E_scan_fields in Hscan as (_ & _ & Hc & -> & _).
    rewrite (not_error_shaped_errors_of _ Hargs) in Hc. simpl in Hc.
    apply E_fill_nil in Hc. rewrite Hc in Hfill. by simplify_eq.
  - apply E_None_iff in HE.
    by apply not_error_shaped_no_typed_nil in Hargs.
Qed.

Lemma E_nil_propagation_witness :
  E [] [arg_error nil_error] = Some ([], nil_error) ∧
  E [] [arg_string "network latency"; arg_Kind IO] = Some ([], nil_error).
Proof.
  split.
  - apply (E_nil_propagation [] [arg_error nil_error]). reflexivity.
  - apply (E_nil_propagation [] [arg_string "network latency"; arg_Kind IO]).
    reflexivity.
Defined.

(** C10: E is not total: an argument that is a nil pointer of type [*Error]
    is taken by the case for [*Error], whose copy dereferences it, so the
    call faults wherever the argument stands in the list. *)
Theorem E_typed_nil_faults (h : heap) (args1 args2 : list arg) :
  E h (args1 ++ arg_error nil_ptr_Error :: args2) = None.
Proof.
  apply E_None_iff. rewrite elem_of_app, elem_of_cons. by right; left.
Qed.

Example E_typed_nil_example : E [] [arg_error nil_ptr_Error] = None.
Proof. reflexivity. Qed.

(** ** Last wins, and what is taken from a wrapped record *)

Lemma metas_of_nil_maps_of (args : list arg) :
  metas_of args = [] → maps_of args = [].
Proof.
  unfold metas_of, maps_of.
  induction args as [|a args IH]; simpl; [done|].
  destruct a; simpl; try done.
Qed.

(** C4, as amended: the record E returns holds the last message and the
    last error-shaped argument; it holds the last Kind, except that a last
    Kind that is Unknown gives way to the kind of a wrapped record; it holds
    the last metadata argument (a MetaData by reference, a plain map as a
    fresh copy), except that a last MetaData that is nil gives way to the
    metadata of a wrapped record.  Earlier arguments of a shape leave no
    trace in the record. *)
Theorem E_last_wins (h : heap) (args : list arg) (h' : heap) (r : Error) :
  E h args = Some (h', ptr_Error r) →
  e_s r = last_string args ∧
  e_cause r = last_error args ∧
  e_Kind r = (if last_Kind args =? Unknown
              then wrapped_Kind (e_cause r) else last_Kind args) ∧
  match last (metas_of args) with
  | None | Some (by_ref None) => e_Meta r = wrapped_Meta (e_cause r)
  | Some (by_ref (Some l)) => e_Meta r = Some l
  | Some (by_copy c) =>
      ∃ l, e_Meta r = Some l ∧ h' !! l = Some (default ∅ c) ∧ h !! l = None
  end.
Proof.
  intros (Hs & Hc & Hk & _ & Hm)%E_fields. rewrite Hc. by repeat split.
Qed.

Lemma E_last_wins_witness :
  let e := New "foo" in
  (∃ r, E [] [arg_error e; arg_string "a"; arg_string "b"]
        = Some ([], ptr_Error r) ∧ e_s r = "b") ∧
  (∃ r, E [] [arg_error e; arg_Kind Invalid; arg_Kind IO]
        = Some ([], ptr_Error r) ∧ e_Kind r = IO).
Proof.
  intros e. split; eexists; (split; [reflexivity|]).
  - exact (proj1 (E_last_wins [] [arg_error e; arg_string "a"; arg_string "b"]
                    [] _ eq_refl)).
  - exact (proj1 (proj2 (proj2
             (E_last_wins [] [arg_error e; arg_Kind Invalid; arg_Kind IO]
                [] _ eq_refl)))).
Defined.

(** C4, as stated, fails: with a wrapped record of kind IO, the last Kind
    argument Unknown is not the kind of the record E returns. *)
Lemma E_last_Kind_not_retained :
  let inner := mkError IO (New "foo") "" None in
  let args := [arg_error (ptr_Error inner); arg_Kind Invalid; arg_Kind Unknown] in
  ∃ r, E [] args = Some ([], ptr_Error r) ∧
       last (kinds_of args) = Some Unknown ∧
       e_Kind r = IO ∧ e_Kind r ≠ Unknown.
Proof. eexists. by repeat split. Qed.

(** C5: when the resolved cause is a record [w], the record E returns has
    the kind of [w] if the resolved Kind of the caller is Unknown, which
    includes the caller giving no Kind at all, and the caller's resolved
    Kind otherwise. *)
Theorem E_kind_inheritance (h : heap) (args : list arg) (h' : heap) (r w : Error) :
  E h args = Some (h', ptr_Error r) →
  e_cause r = ptr_Error w →
  (last_Kind args = Unknown → e_Kind r = e_Kind w) ∧
  (last_Kind args ≠ Unknown → e_Kind r = last_Kind args) ∧
  (kinds_of args = [] → e_Kind r = e_Kind w).
Proof.
  intros (_ & Hc & Hk & _)%E_fields Hw. rewrite <- Hc, Hw in Hk. simpl in Hk.
  split; [|split].
  - intros Hu. by rewrite Hu in Hk.
  - intros Hu. apply Z.eqb_neq in Hu. by rewrite Hu in Hk.
  - intros Hnone. unfold last_Kind in Hk. by rewrite Hnone in Hk.
Qed.

Lemma E_kind_inheritance_witness :
  let inner := mkError IO (New "foo") "" None in
  (∃ r, E [] [arg_error (ptr_Error inner); arg_string "ctx"]
        = Some ([], ptr_Error r) ∧ e_Kind r = IO) ∧
  (∃ r, E [] [arg_error (ptr_Error inner); arg_string "ctx"; arg_Kind Decrypt]
        = Some ([], ptr_Error r) ∧ e_Kind r = Decrypt).
Proof.
  intros inner. split; eexists; (split; [reflexivity|]).
  - apply (E_kind_inheritance [] [arg_error (ptr_Error inner); arg_string "ctx"]
             [] _ inner eq_refl eq_refl). reflexivity.
  - apply (E_kind_inheritance []
             [arg_error (ptr_Error inner); arg_string "ctx"; arg_Kind Decrypt]
             [] _ inner eq_refl eq_refl). discriminate.
Defined.

(** C6, as amended: when the resolved cause is a record [w] and the caller
    gives no metadata argument, the record E returns holds the very location
    of the map of [w] and nothing is allocated; a last MetaData argument that
    is nil counts as none; a last MetaData that is not nil is kept, by
    reference; a last plain map is kept as a fresh copy. *)
Theorem E_meta_inheritance (h : heap) (args : list arg) (h' : heap) (r w : Error) :
  E h args = Some (h', ptr_Error r) →
  e_cause r = ptr_Error w →
  (metas_of args = [] → e_Meta r = e_Meta w ∧ h' = h) ∧
  (last (metas_of args) = Some (by_ref None) → e_Meta r = e_Meta w) ∧
  (∀ l, last (metas_of args) = Some (by_ref (Some l)) → e_Meta r = Some l) ∧
  (∀ c, last (metas_of args) = Some (by_copy c) →
        ∃ l, e_Meta r = Some l ∧ h' !! l = Some (default ∅ c) ∧ h !! l = None).
Proof.
  intros (_ & Hc & _ & Hh & Hm)%E_fields Hw. rewrite <- Hc, Hw in Hm.
  simpl in Hm. split; [|split; [|split]].
  - intros Hnone. split; [by rewrite Hnone in Hm|].
    rewrite Hh, (metas_of_nil_maps_of _ Hnone). apply app_nil_r.
  - intros Hl. by rewrite Hl in Hm.
  - intros l Hl. by rewrite Hl in Hm.
  - intros c Hl. by rewrite Hl in Hm.
Qed.

Lemma E_meta_inheritance_witness :
  let h := [{[ "1" := VInt 1 ]}] in
  let inner := mkError IO (New "foo") "network latency" (Some 0%nat) in
  ∃ r, E h [arg_string "geting foo from db"; arg_error (ptr_Error inner)]
       = Some (h, ptr_Error r) ∧ e_Meta r = Some 0%nat.
Proof.
  intros h inner. eexists. split; [reflexivity|].
  exact (proj1 (proj1 (E_meta_inheritance h
           [arg_string "geting foo from db"; arg_error (ptr_Error inner)]
           h _ inner eq_refl eq_refl) eq_refl)).
Defined.

(** C6, as stated, fails: the caller supplies a MetaData, the nil one, and
    the record E returns still holds the map of the wrapped record. *)
Lemma E_nil_MetaData_inherits :
  let h := [{[ "1" := VInt 1 ]}] in
  let inner := mkError IO (New "foo") "network latency" (Some 0%nat) in
  let args := [arg_error (ptr_Error inner); arg_MetaData None] in
  ∃ r, E h args = Some (h, ptr_Error r) ∧
       last (metas_of args) = Some (by_ref None) ∧
       e_Meta r = e_Meta inner ∧ e_Meta r ≠ None.
Proof. eexists. by repeat split. Qed.

(** ** The chained and the short message *)

(** C2: the chained message of a record is its message, the separator and
    the chained message of its cause, without the separator when the message
    is empty; a leaf renders natively; so the whole chain renders as its
    non-empty messages and the rendering of the leaf joined by the
    separator; and the chain of four records over "network unreachable",
    built by E, renders as the specification says. *)
Theorem Error_chained_message :
  (∀ e : Error,
     Error_Error e =
       c ← error_Error (e_cause e);
       Some (if String.eqb (e_s e) "" then c else e_s e +:+ ": " +:+ c)) ∧
  (∀ text : string, error_Error (New text) = Some text) ∧
  (∀ err : error,
     error_Error err =
       leaf ← leaf_Error err;
       Some (strings_Join (link_messages err ++ [leaf]) ": ")) ∧
  ('(h1, e1) ← E [] [arg_error (New "network unreachable");
                     arg_string "io error"; arg_Kind IO];
   '(h2, e2) ← E h1 [arg_error e1; arg_string "can't unmarshal bar";
                     arg_Kind Unmarshal];
   '(h3, e3) ← E h2 [arg_error e2; arg_string "invalid key"; arg_Kind Decrypt];
   '(h4, e4) ← E h3 [arg_error e3; arg_string "no part of group";
                     arg_Kind Permission];
   error_Error e4)
  = Some "no part of group: invalid key: can't unmarshal bar: io error: network unreachable".
Proof.
  split; [exact error_Error_unfold|]. split; [done|].
  split; [exact error_Error_chain | reflexivity].
Qed.

(** C1: [Msg] cuts the chained message at the first colon, whatever follows
    it, where the specification cuts at the first colon followed by a space:
    the record E builds over "foo" with the message "a:b" has the chained
    message "a:b: foo", its short message is "a", and the short message the
    specification words is "a:b". *)
Theorem Msg_cuts_at_bare_colon :
  let e := mkError Unknown (New "foo") "a:b" None in
  E [] [arg_error (New "foo"); arg_string "a:b"] = Some ([], ptr_Error e) ∧
  Error_Error e = Some "a:b: foo" ∧
  Msg e = Some "a" ∧
  Msg_spec e = Some "a:b".
Proof. by repeat split. Qed.

(** ** Classification accessors *)

(** Where [IsKind] returns: true exactly on a record whose kind is the
    target; on a record it returns whether the kinds are equal; on nil and
    on every plain error it returns false, whatever the target. *)
Lemma IsKind_spec :
  (∀ (err : error) (k : Kind),
     IsKind err k = Some true ↔ ∃ e, err = ptr_Error e ∧ e_Kind e = k) ∧
  (∀ (e : Error) (k : Kind),
     IsKind (ptr_Error e) k = Some (bool_decide (e_Kind e = k))) ∧
  (∀ k : Kind, IsKind nil_error k = Some false) ∧
  (∀ (err : error) (k : Kind), is_plain err = true → IsKind err k = Some false).
Proof.
  split; [|split; [|split]].
  - intros err k. split.
    + destruct err as [| | | | |e]; simpl; try done.
      intros [= Hk%Z.eqb_eq]. by exists e.
    + intros (e & -> & <-). simpl. by rewrite Z.eqb_refl.
  - intros e k. simpl. f_equal.
    destruct (Z.eqb_spec (e_Kind e) k).
    + by rewrite bool_decide_eq_true_2.
    + by rewrite bool_decide_eq_false_2.
  - done.
  - intros err k. by destruct err.
Qed.

(** C8: [IsKind] does not return false on every value that is not a record
    of the target kind: on a nil pointer of type [*Error] the type assertion
    succeeds and reading the kind through the pointer faults.  This is the
    only value on which it faults; on every other value it returns true
    exactly on a record of the target kind and false exactly on the rest. *)
Theorem IsKind_typed_nil_faults :
  (∀ k : Kind, IsKind nil_ptr_Error k = None) ∧
  (∀ (err : error) (k : Kind), IsKind err k = None ↔ err = nil_ptr_Error) ∧
  (∀ (err : error) (k : Kind),
     IsKind err k = Some true ↔ ∃ e, err = ptr_Error e ∧ e_Kind e = k) ∧
  (∀ (err : error) (k : Kind),
     IsKind err k = Some false ↔
     err ≠ nil_ptr_Error ∧ ¬ ∃ e, err = ptr_Error e ∧ e_Kind e = k).
Proof.
  split; [done|]. split; [|split].
  - intros err k. split; [by destruct err | by intros ->].
  - intros err k. split.
    + destruct err as [| | | | |e]; simpl; try done.
      intros [= Hk%Z.eqb_eq]. by exists e.
    + intros (e & -> & <-). simpl. by rewrite Z.eqb_refl.
  - intros err k. split.
    + destruct err as [| | | | |e]; simpl; try done;
        try (intros _; split; [done|]; by intros (e' & ? & _)).
      intros [= Hk%Z.eqb_neq]. split; [done|].
      intros (e' & [= <-] & He). done.
    + intros [Hnil Hrec]. destruct err as [| | | | |e]; simpl; try done.
      f_equal. apply Z.eqb_neq. intros Hk. apply Hrec. by exists e.
Qed.

(** The loop of [Cause], one iteration unfolded. *)
Lemma Cause_unfold (err : error) :
  Cause err =
    if err is nil_error then Some err
    else if is_causer err then call_Cause err ≫= Cause
    else Some err.
Proof. by destruct err as [| | | | |[k c s m]]. Qed.

Lemma Cause_no_causer (x : error) : is_causer x = false → Cause x = Some x.
Proof. by destruct x. Qed.

Lemma Cause_step (x y : error) : cause_step x y → Cause x = Cause y.
Proof.
  intros [Hc Hy]. rewrite (Cause_unfold x), Hc, Hy.
  by destruct x.
Qed.

(** Whatever [Cause] returns has no method [Cause], and is reached from the
    argument by unwrapping. *)
Lemma Cause_result (x r : error) :
  Cause x = Some r → is_causer r = false ∧ rtc cause_step x r.
Proof.
  induction x as [|s|msg|msg c IH| |k c s m IH] using error_chain_ind;
    simpl; intros H; simplify_eq; try done.
  - destruct (IH H) as [Hr Hc]. split; [done|].
    by apply rtc_l with c.
  - destruct (IH H) as [Hr Hc]. split; [done|].
    by apply rtc_l with c.
Qed.

(** [Cause] faults exactly when unwrapping reaches a typed nil [*Error]. *)
Lemma Cause_None_iff (x : error) :
  Cause x = None ↔ rtc cause_step x nil_ptr_Error.
Proof.
  split.
  - induction x as [|s|msg|msg c IH| |k c s m IH] using error_chain_ind;
      simpl; intros H; simplify_eq; try done.
    + by apply rtc_l with c; [|apply IH].
    + by apply rtc_l with c; [|apply IH].
  - intros Hchain. remember nil_ptr_Error as r eqn:Hr.
    induction Hchain as [x|x y r Hxy _ IH]; [by subst|].
    rewrite (Cause_step x y Hxy). by apply IH.
Qed.

(** C9: [Cause] of nil is nil; a value without the method [Cause] is
    returned as it is, so unwrapping it twice is unwrapping it once; for
    every chain of unwrapping steps from [x] to a value [r] without the
    method, [Cause x] returns [r]; and unwrapping twice is unwrapping once
    on every value. *)
Theorem Cause_unwraps :
  Cause nil_error = Some nil_error ∧
  (∀ x : error,
     is_causer x = false → Cause x = Some x ∧ Cause x ≫= Cause = Cause x) ∧
  (∀ x r : error,
     rtc cause_step x r → is_causer r = false → Cause x = Some r) ∧
  (∀ x : error, Cause x ≫= Cause = Cause x).
Proof.
  split; [done|]. split; [|split].
  - intros x Hx. rewrite (Cause_no_causer x Hx). simpl.
    by rewrite (Cause_no_causer x Hx).
  - intros x r Hchain Hr.
    induction Hchain as [x|x y r Hxy _ IH].
    + by apply Cause_no_causer.
    + rewrite (Cause_step x y Hxy). by apply IH.
  - intros x. destruct (Cause x) as [r|] eqn:Hx; [|done]. simpl.
    apply Cause_result in Hx as [Hr _]. by apply Cause_no_causer.
Qed.

(** ** Serialization *)

Section serialization.

Variable json_text : string → string.
Variable json_meta : heap → gmap string value → outcome string.

Lemma json_detail_field (h : heap) (detail : option (gmap string value)) :
  match json_field json_text json_meta h ("detail", true, JMetaData detail) with
  | None => detail_text json_meta h detail = returns ""
  | Some o =>
      detail_text json_meta h detail = (b ← o; returns (b +:+ ","))
  end.
Proof.
  destruct detail as [m|]; [|done]. cbn [json_field andb isEmptyValue].
  unfold detail_text. destruct (decide (m = ∅)) as [->|Hne].
  - by rewrite bool_decide_eq_true_2.
  - rewrite bool_decide_eq_false_2 by by intros ?%map_size_empty_iff.
    cbn [json_jvalue]. destruct (json_meta h m) as [b| |]; [|done..].
    cbn. by rewrite !append_assoc.
Qed.

(** The serialized form of every record: the struct of [MarshalJSON] put
    through the encoder of structs gives the object with [detail] (left out
    for nil and empty metadata, and deciding whether the call returns),
    [type], [error] and [code] in this order, where [error] is the text of
    [Msg]; a fault of [Msg] is a panic. *)
Lemma MarshalJSON_form (h : heap) (e : Error) :
  MarshalJSON json_text json_meta h e =
    match Msg e, heap_read h (e_Meta e) with
    | Some msg, Some detail =>
        d ← detail_text json_meta h detail;
        returns ("{" +:+ d
                     +:+ dq "'type':" +:+ json_text (Kind_String (e_Kind e))
                     +:+ dq ",'error':" +:+ json_text msg
                     +:+ dq ",'code':" +:+ json_int (e_Kind e) +:+ "}")
    | _, _ => panics
    end.
Proof.
  unfold MarshalJSON.
  destruct (Msg e) as [msg|]; [|done].
  destruct (heap_read h (e_Meta e)) as [detail|]; [|done].
  unfold json_Marshal. cbn [json_fields].
  pose proof (json_detail_field h detail) as Hd.
  destruct (json_field json_text json_meta h ("detail", true, JMetaData detail))
    as [o|]; rewrite Hd; clear Hd.
  - destruct o as [b| |]; [|done..].
    cbn. rewrite !append_assoc.
    generalize (json_text (Kind_String (e_Kind e))), (json_text msg),
      (json_int (e_Kind e)).
    reflexivity.
  - cbn. rewrite !append_assoc.
    generalize (json_text (Kind_String (e_Kind e))), (json_text msg),
      (json_int (e_Kind e)).
    reflexivity.
Qed.

(** C7: the serialized form has the fields [detail], [type], [error] and
    [code] in this order, with [detail] left out for nil and empty metadata,
    but its [error] is what [Msg] returns and not the short message of the
    specification: the record E builds over "foo" with the message "a:b",
    whose short message is "a:b" by the specification, is serialized with
    the error "a". *)
Theorem MarshalJSON_error_is_Msg :
  (∀ (h : heap) (e : Error),
     MarshalJSON json_text json_meta h e =
       match Msg e, heap_read h (e_Meta e) with
       | Some msg, Some detail =>
           d ← detail_text json_meta h detail;
           returns ("{" +:+ d
                        +:+ dq "'type':" +:+ json_text (Kind_String (e_Kind e))
                        +:+ dq ",'error':" +:+ json_text msg
                        +:+ dq ",'code':" +:+ json_int (e_Kind e) +:+ "}")
       | _, _ => panics
       end) ∧
  (let e := mkError Unknown (New "foo") "a:b" None in
   E [] [arg_error (New "foo"); arg_string "a:b"] = Some ([], ptr_Error e) ∧
   Msg_spec e = Some "a:b" ∧
   MarshalJSON json_text json_meta [] e =
     returns ("{" +:+ dq "'type':" +:+ json_text "Unknown error"
                  +:+ dq ",'error':" +:+ json_text "a"
                  +:+ dq ",'code':0}")).
Proof.
  split; [exact MarshalJSON_form|]. intros e.
  split; [reflexivity|]. split; [reflexivity|].
  rewrite MarshalJSON_form. reflexivity.
Qed.

(** The example of the specification and of the package's test, for every
    encoder that writes plain strings between quotation marks and the map of
    the example as the test expects it. *)
Lemma MarshalJSON_example :
  (∀ s, plain s = true → json_text s = json_quote +:+ s +:+ json_quote) →
  (∀ h, json_meta h {[ "foo" := VString "bar" ]} = returns (dq "{'foo':'bar'}")) →
  (let '(h, meta) := new_MetaData [] {[ "foo" := VString "bar" ]} in
   match E h [arg_error (New "foo"); arg_string "network latency";
              arg_Kind IO; arg_MetaData meta] with
   | Some (h', ptr_Error e) => MarshalJSON json_text json_meta h' e
   | _ => panics
   end)
  = returns (dq "{'detail':{'foo':'bar'},'type':'I/O error','error':'network latency','code':3}").
Proof.
  intros Htext Hmeta. cbn [new_MetaData heap_alloc].
  change (E _ _) with
    (Some ([{[ "foo" := VString "bar" ]}] : heap,
           ptr_Error (mkError IO (New "foo") "network latency" (Some 0%nat)))).
  cbv iota. rewrite MarshalJSON_form.
  change (Msg _) with (Some "network latency").
  change (heap_read _ _) with (Some (Some ({[ "foo" := VString "bar" ]} : gmap string value))).
  cbv iota. unfold detail_text.
  rewrite decide_False by (by intros ?%(f_equal (lookup "foo"))).
  rewrite Hmeta. cbn [mbind outcome_bind e_Kind].
  rewrite !Htext by reflexivity. reflexivity.
Qed.

End serialization.

(** The example runs on the two encoders of the examples. *)
Example MarshalJSON_example_runs :
  (let '(h, meta) := new_MetaData [] {[ "foo" := VString "bar" ]} in
   match E h [arg_error (New "foo"); arg_string "network latency";
              arg_Kind IO; arg_MetaData meta] with
   | Some (h', ptr_Error e) => MarshalJSON quoted_text test_meta h' e
   | _ => panics
   end)
  = returns (dq "{'detail':{'foo':'bar'},'type':'I/O error','error':'network latency','code':3}").
Proof. apply MarshalJSON_example; done. Qed.

(** ** What Msg computes *)

Lemma len_cons (c : ascii) (s : string) : len (String c s) = 1 + len s.
Proof. unfold len. simpl. lia. Qed.

Lemma Index_from_colon (s : string) (i : Z) :
  Index_from i s ":" = if has_colon s then i + len (before_colon s) else -1.
Proof.
  revert i. induction s as [|c s IH]; intros i; [done|].
  cbn [Index_from String.prefix has_colon before_colon].
  destruct (Ascii.eqb_spec c ":") as [->|Hc].
  - destruct (ascii_dec ":" ":"); [|done].
    replace (String.prefix "" s) with true by (by destruct s).
    unfold len. simpl. lia.
  - destruct (ascii_dec ":" c) as [<-|_]; [done|].
    rewrite IH. destruct (has_colon s); [|done]. rewrite len_cons. lia.
Qed.

Lemma before_colon_no_colon (s : string) :
  has_colon s = false → before_colon s = s.
Proof.
  induction s as [|c s IH]; simpl; [done|].
  destruct (Ascii.eqb c ":"); [done|]. intros H. by rewrite IH.
Qed.

Lemma before_colon_length (s : string) :
  (String.length (before_colon s) ≤ String.length s)%nat.
Proof.
  induction s as [|c s IH]; simpl; [done|].
  destruct (Ascii.eqb c ":"); simpl; lia.
Qed.

Lemma substring_before_colon (s : string) :
  String.substring 0 (String.length (before_colon s)) s = before_colon s.
Proof.
  induction s as [|c s IH]; simpl; [done|].
  destruct (Ascii.eqb c ":"); simpl; [done | by rewrite IH].
Qed.

Lemma slice_to_before_colon (s : string) :
  slice_to s (len (before_colon s)) = Some (before_colon s).
Proof.
  unfold slice_to, len. rewrite Nat2Z.id, substring_before_colon.
  pose proof (before_colon_length s).
  destruct (Z.leb_spec 0 (Z.of_nat (String.length (before_colon s)))); [|lia].
  by destruct (Z.leb_spec (Z.of_nat (String.length (before_colon s)))
                 (Z.of_nat (String.length s))); [|lia].
Qed.

(** Whenever the chained message renders, [Msg] returns it up to its first
    colon: the slice is never out of range. *)
Lemma Msg_before_colon (e : Error) (str : string) :
  Error_Error e = Some str → Msg e = Some (before_colon str).
Proof.
  intros Hstr. unfold Msg. rewrite Hstr. simpl.
  unfold strings_Index. rewrite Index_from_colon.
  destruct (has_colon str) eqn:Hcolon.
  - pose proof (before_colon_length str).
    destruct (Z.eqb_spec (0 + len (before_colon str)) (-1)) as [Heq|_].
    { unfold len in Heq. lia. }
    rewrite Z.add_0_l. apply slice_to_before_colon.
  - simpl. pose proof (slice_to_before_colon str) as Hslice.
    by rewrite (before_colon_no_colon str Hcolon) in Hslice |- *.
Qed.

(** A record with a non-empty message without a colon has this message as
    its short message. *)
Lemma Msg_own_message (e : Error) (c : string) :
  error_Error (e_cause e) = Some c →
  e_s e ≠ "" → has_colon (e_s e) = false →
  Msg e = Some (e_s e).
Proof.
  intros Hc Hne Hcolon.
  rewrite (Msg_before_colon e (e_s e +:+ ": " +:+ c)).
  - f_equal. clear Hne. induction (e_s e) as [|x s IH]; [done|].
    rewrite append_cons. simpl in *.
    destruct (Ascii.eqb x ":"); [done|]. by rewrite IH.
  - rewrite error_Error_unfold, Hc. simpl.
    by destruct (eqb_empty_spec (e_s e)) as [[_ ?]|[-> _]].
Qed.

(** ** Further properties of E *)

(** E on a single plain error: a record of kind Unknown, without message
    and metadata, whose chained message is the error's own. *)
Lemma E_plain_error (h : heap) (e : error) :
  is_plain e = true →
  E h [arg_error e] = Some (h, ptr_Error (mkError Unknown e "" None)) ∧
  Error_Error (mkError Unknown e "" None) = error_Error e.
Proof.
  intros He. split.
  - by destruct e.
  - rewrite error_Error_unfold. simpl. by destruct (error_Error e).
Qed.

(** A record E returns never has a nil cause. *)
Lemma E_cause_not_nil (h : heap) (args : list arg) (h' : heap) (r : Error) :
  E h args = Some (h', ptr_Error r) → e_cause r ≠ nil_error.
Proof.
  intros (e & _ & Hfill)%E_inv Hnil.
  apply E_fill_fields in Hfill as Hf. destruct Hf as (_ & Hc & _).
  rewrite Hc in Hnil. apply E_fill_nil in Hnil. congruence.
Qed.

(** Sharing: after the metadata of a wrapped record is taken over, a store
    into the map of the wrapped record is read through the new record. *)
Lemma E_meta_shared (h : heap) (args : list arg) (h' : heap) (r w : Error)
    (l : loc) (k : string) (v : value) (m : gmap string value) :
  E h args = Some (h', ptr_Error r) →
  e_cause r = ptr_Error w →
  metas_of args = [] →
  e_Meta w = Some l → h' !! l = Some m →
  heap_read (heap_store h' l k v) (e_Meta r) = Some (Some (<[k := v]> m)).
Proof.
  intros HE Hw Hnone Hl Hm.
  apply E_fields in HE as (_ & Hc & _ & _ & HM).
  rewrite (proj2 (last_None _) Hnone), <- Hc, Hw in HM. simpl in HM.
  rewrite HM, Hl. unfold heap_store, heap_read. rewrite Hm.
  rewrite (list_lookup_insert_eq h' l); [done|]. by eapply lookup_lt_Some.
Qed.

(** ** Kinds *)

Lemma Kind_String_labels :
  Kind_String Unknown = "Unknown error" ∧
  Kind_String Invalid = "invalid operation" ∧
  Kind_String Permission = "permission denied" ∧
  Kind_String IO = "I/O error" ∧
  Kind_String Duplicated = "item already exists" ∧
  Kind_String NotExist = "item does not exist" ∧
  Kind_String Private = "information withheld" ∧
  Kind_String Internal = "internal error" ∧
  Kind_String Decrypt = "invalid encryption" ∧
  Kind_String Unmarshal = "invalid data" ∧
  Kind_String Transient = "transient error" ∧
  Kind_String Unsupported = "unsupported" ∧
  Kind_String NotAcceptable = "not accepted".
Proof. by repeat split. Qed.

Lemma Kind_String_other (k : Kind) :
  ¬ (0 ≤ k ≤ 12) → Kind_String k = "unknown error kind".
Proof.
  intros Hk. unfold Kind_String, Unknown, Invalid, Permission, IO, Duplicated,
    NotExist, Private, Internal, Decrypt, Unmarshal, Transient, Unsupported,
    NotAcceptable.
  repeat match goal with
         | |- context [Z.eqb k ?n] => destruct (Z.eqb_spec k n); [lia|]
         end.
  done.
Qed.

(** * Further properties of the package *)

(** ** Status codes and labels *)

Lemma Kind_cases (k : Kind) :
  0 ≤ k ≤ 12 →
  k = Unknown ∨ k = Invalid ∨ k = Permission ∨ k = IO ∨ k = Duplicated ∨
  k = NotExist ∨ k = Private ∨ k = Internal ∨ k = Decrypt ∨ k = Unmarshal ∨
  k = Transient ∨ k = Unsupported ∨ k = NotAcceptable.
Proof.
  unfold Unknown, Invalid, Permission, IO, Duplicated, NotExist, Private,
    Internal, Decrypt, Unmarshal, Transient, Unsupported, NotAcceptable. lia.
Qed.

Ltac kind_cases H :=
  destruct (Kind_cases _ H) as
    [->|[->|[->|[->|[->|[->|[->|[->|[->|[->|[->|[->| ->]]]]]]]]]]]].

Lemma Kind_StatusCode_other (k : Kind) :
  ¬ (0 ≤ k ≤ 12) → Kind_StatusCode k = StatusInternalServerError.
Proof.
  intros Hk. unfold Kind_StatusCode, Unknown, Invalid, Permission, IO,
    Duplicated, NotExist, Private, Internal, Decrypt, Unmarshal, Transient,
    Unsupported, NotAcceptable.
  repeat match goal with
         | |- context [Z.eqb k ?n] => destruct (Z.eqb_spec k n); [lia|]
         end.
  done.
Qed.

(** X1: the status code of a kind is a client or server error code, and it
    is the internal server error exactly for [Unknown], [IO], [Internal] and
    the values that are none of the thirteen kinds. *)
Theorem Kind_StatusCode_classes (k : Kind) :
  400 ≤ Kind_StatusCode k < 600 ∧
  (Kind_StatusCode k = StatusInternalServerError ↔
   k = Unknown ∨ k = IO ∨ k = Internal ∨ ¬ (0 ≤ k ≤ 12)).
Proof.
  destruct (decide (0 ≤ k ≤ 12)) as [Hk|Hk].
  - kind_cases Hk; (split; [by vm_compute|]);
      (split; [try (by vm_compute); intros _; by auto
              | try done; intros [?|[?|[?|Hn]]]; try done;
                exfalso; apply Hn; by vm_compute]).
  - rewrite (Kind_StatusCode_other k Hk). split; [by vm_compute|].
    split; auto.
Qed.

(** X2: the label of one of the thirteen kinds belongs to no other value of
    [Kind]: the label identifies the kind. *)
Theorem Kind_String_identifies (k1 k2 : Kind) :
  0 ≤ k1 ≤ 12 → Kind_String k1 = Kind_String k2 → k1 = k2.
Proof.
  intros H1 Heq. destruct (decide (0 ≤ k2 ≤ 12)) as [H2|H2].
  - kind_cases H1; kind_cases H2; by vm_compute in Heq.
  - rewrite (Kind_String_other k2 H2) in Heq.
    kind_cases H1; by vm_compute in Heq.
Qed.

Lemma Kind_String_identifies_witness :
  Kind_String IO = Kind_String 3 ∧ IO = 3.
Proof.
  split; [reflexivity|].
  apply (Kind_String_identifies IO 3); [by vm_compute | reflexivity].
Defined.

(** ** What E returns *)

(** X3: E faults exactly when one of its arguments is a typed nil [*Error];
    on every other argument list it returns. *)
Theorem E_faults_iff_typed_nil (h : heap) (args : list arg) :
  E h args = None ↔ arg_error nil_ptr_Error ∈ args.
Proof. apply E_None_iff. Qed.

Lemma E_fill_result (e : Error) (r : error) :
  E_fill e = Some r → r = nil_error ∨ ∃ rec, r = ptr_Error rec.
Proof.
  destruct e as [k c s m]. unfold E_fill. simpl.
  destruct c, (k =? Unknown), m; intros ?; simplify_eq; eauto.
Qed.

Lemma E_result_cases (h : heap) (args : list arg) (h' : heap) (r : error) :
  E h args = Some (h', r) →
  (r = nil_error ∧ errors_of args = []) ∨
  (∃ rec, r = ptr_Error rec ∧
          e_cause rec = last_error args ∧
          e_cause rec ≠ nil_error ∧
          arg_error (e_cause rec) ∈ args).
Proof.
  intros HE. destruct (E_inv _ _ _ _ HE) as (e & Hscan & Hfill).
  destruct (E_fill_result _ _ Hfill) as [->|[rec ->]].
  - left. split; [done|].
    apply E_fill_nil in Hfill.
    apply E_scan_fields in Hscan as (_ & _ & Hc & _). simpl in Hc.
    destruct (last_error_elem args) as [[_ Hnone]|[_ Hne]]; [done|].
    unfold last_error in Hne. congruence.
  - right. exists rec. split; [done|].
    apply E_fields in HE as Hf. destruct Hf as (_ & Hc & _).
    pose proof (E_cause_not_nil _ _ _ _ HE) as Hne.
    split; [done|]. split; [done|].
    destruct (last_error_elem args) as [[Hnil _]|[Hin _]]; [congruence|].
    by rewrite Hc.
Qed.

(** X4: what E returns is the nil interface or a record, never another
    error: nil exactly when no argument is a non-nil error, and otherwise a
    record whose cause is not nil and is the last such argument. *)
Theorem E_result_shape (h : heap) (args : list arg) (h' : heap) (r : error) :
  E h args = Some (h', r) →
  (r = nil_error ∧ errors_of args = []) ∨
  (∃ rec, r = ptr_Error rec ∧
          e_cause rec = last_error args ∧
          e_cause rec ≠ nil_error ∧
          arg_error (e_cause rec) ∈ args).
Proof. apply E_result_cases. Qed.

Lemma E_result_shape_witness :
  ∃ rec, E [] [arg_string "ctx"; arg_error (New "foo"); arg_error nil_error]
         = Some ([], ptr_Error rec) ∧ e_cause rec = New "foo".
Proof.
  destruct (E_result_shape []
              [arg_string "ctx"; arg_error (New "foo"); arg_error nil_error]
              [] _ eq_refl) as [[Hnil _]|(rec & Hr & Hc & _)].
  - discriminate Hnil.
  - exists rec. split; [by rewrite <- Hr | exact Hc].
Defined.

Lemma renders_is_Some (err : error) :
  renders err = true ↔ is_Some (error_Error err).
Proof.
  induction err as [|s|msg|msg c _| |k c s m IH] using error_chain_ind;
    simpl; try (split; [by eauto | done]);
    try (split; [done | by intros [? ?]]).
  rewrite IH. split.
  - intros [x Hx]. rewrite Hx. simpl. by eexists.
  - intros [x Hx]. destruct (error_Error c); [by eexists | done].
Qed.

Lemma arg_renders_no_typed_nil (args : list arg) :
  forallb arg_renders args = true → arg_error nil_ptr_Error ∉ args.
Proof.
  intros H Hin. rewrite forallb_forall in H.
  by apply list_elem_of_In, H in Hin.
Qed.

(** X5: the errors that render are closed under E: when every error among
    the arguments is the nil interface or renders, E returns, and what it
    returns is the nil interface or renders, so that its methods [Error] and
    [Msg] return. *)
Theorem E_closed_on_rendering (h : heap) (args : list arg) :
  forallb arg_renders args = true →
  ∃ h' r, E h args = Some (h', r) ∧
          (r = nil_error ∨
           ∃ rec, r = ptr_Error rec ∧ renders r = true ∧
                  is_Some (Error_Error rec) ∧ is_Some (Msg rec)).
Proof.
  intros Hargs. destruct (E h args) as [[h' r]|] eqn:HE.
  - exists h', r. split; [done|].
    destruct (E_result_cases _ _ _ _ HE) as [[-> _]|(rec & -> & Hc & Hne & Hin)];
      [by left|right].
    exists rec. split; [done|].
    assert (renders (e_cause rec) = true) as Hren.
    { rewrite forallb_forall in Hargs.
      apply list_elem_of_In, Hargs in Hin. simpl in Hin.
      by destruct (e_cause rec). }
    assert (renders (ptr_Error rec) = true) as Hrec by by destruct rec.
    split; [done|].
    apply renders_is_Some in Hrec as [str Hstr]. split; [by exists str|].
    exists (before_colon str). by apply Msg_before_colon.
  - apply E_None_iff in HE. by apply arg_renders_no_typed_nil in Hargs.
Qed.

Lemma E_closed_on_rendering_witness :
  ∃ h' r, E [] [arg_error (ptr_Error (mkError IO (New "foo") "io" None));
                arg_string "ctx"] = Some (h', r) ∧
          (r = nil_error ∨
           ∃ rec, r = ptr_Error rec ∧ renders r = true ∧
                  is_Some (Error_Error rec) ∧ is_Some (Msg rec)).
Proof.
  apply (E_closed_on_rendering []
           [arg_error (ptr_Error (mkError IO (New "foo") "io" None));
            arg_string "ctx"]).
  reflexivity.
Defined.

(** ** The short message *)

Lemma before_colon_split (s : string) :
  ∃ rest, s = before_colon s +:+ rest ∧
          (rest = "" ∨ ∃ rest', rest = String ":" rest').
Proof.
  induction s as [|c s (rest & Hs & Hrest)]; simpl.
  { exists "". by split; [|left]. }
  destruct (Ascii.eqb_spec c ":") as [->|Hc].
  - exists (String ":" s). split; [done|]. right. by eexists.
  - exists rest. split; [|done]. by rewrite append_cons, <- Hs.
Qed.

Lemma before_colon_has_no_colon (s : string) :
  has_colon (before_colon s) = false.
Proof.
  induction s as [|c s IH]; simpl; [done|].
  destruct (Ascii.eqb c ":") eqn:Hc; simpl; [done|]. by rewrite Hc.
Qed.

(** X6: whenever the chained message of a record renders, [Msg] returns: the
    short message is the part of the chained message before its first colon,
    so it holds no colon, and the chained message is the short message alone
    or the short message followed by a colon and more. *)
Theorem Msg_prefix_without_colon (e : Error) (str : string) :
  Error_Error e = Some str →
  ∃ m rest, Msg e = Some m ∧ str = m +:+ rest ∧ has_colon m = false ∧
            (rest = "" ∨ ∃ rest', rest = String ":" rest').
Proof.
  intros Hstr. destruct (before_colon_split str) as (rest & Hs & Hrest).
  exists (before_colon str), rest.
  split; [by apply Msg_before_colon|]. split; [done|].
  split; [apply before_colon_has_no_colon | done].
Qed.

Lemma Msg_prefix_without_colon_witness :
  ∃ m rest, Msg (mkError IO (New "dial tcp: timeout") "" None) = Some m ∧
            "dial tcp: timeout" = m +:+ rest ∧ has_colon m = false ∧
            (rest = "" ∨ ∃ rest', rest = String ":" rest').
Proof.
  apply (Msg_prefix_without_colon
           (mkError IO (New "dial tcp: timeout") "" None) "dial tcp: timeout").
  reflexivity.
Defined.

(** X7: a record whose message is not empty and holds no colon has exactly
    this message as its short message, whatever its cause renders as. *)
Theorem Msg_is_own_message (e : Error) (c : string) :
  error_Error (e_cause e) = Some c →
  e_s e ≠ "" → has_colon (e_s e) = false →
  Msg e = Some (e_s e).
Proof. apply Msg_own_message. Qed.

Lemma Msg_is_own_message_witness :
  Msg (mkError IO (New "dial tcp: timeout") "network latency" None)
  = Some "network latency".
Proof.
  apply (Msg_is_own_message
           (mkError IO (New "dial tcp: timeout") "network latency" None)
           "dial tcp: timeout"); [reflexivity | discriminate | reflexivity].
Defined.

Lemma Msg_empty_message (e w : Error) :
  e_s e = "" → e_cause e = ptr_Error w → Msg e = Msg w.
Proof.
  intros Hs Hc. unfold Msg. rewrite (error_Error_unfold e), Hs, Hc.
  change (error_Error (ptr_Error w)) with (Error_Error w).
  by destruct (Error_Error w).
Qed.

(** X8: a record without a message has the short message of the record it
    wraps. *)
Theorem Msg_falls_through (e w : Error) :
  e_s e = "" → e_cause e = ptr_Error w → Msg e = Msg w.
Proof. apply Msg_empty_message. Qed.

Lemma Msg_falls_through_witness :
  let w := mkError IO (New "foo") "network latency" None in
  Msg (mkError IO (ptr_Error w) "" None) = Msg w.
Proof.
  intros w. apply (Msg_falls_through (mkError IO (ptr_Error w) "" None) w);
    reflexivity.
Defined.

(** ** E composed with the accessors *)

(** X9: the chained message of the record E returns is the last message
    argument, the separator and the chained message of the last error
    argument; without a message argument, or with an empty one, it is the
    chained message of that error alone. *)
Theorem E_chained_message (h : heap) (args : list arg) (h' : heap) (rec : Error) :
  E h args = Some (h', ptr_Error rec) →
  Error_Error rec =
    c ← error_Error (last_error args);
    Some (if String.eqb (last_string args) "" then c
          else last_string args +:+ ": " +:+ c).
Proof.
  intros (Hs & Hc & _)%E_fields. by rewrite error_Error_unfold, Hs, Hc.
Qed.

Lemma E_chained_message_witness :
  ∃ rec, E [] [arg_Kind IO; arg_error (New "foo"); arg_string "bar"]
         = Some ([], ptr_Error rec) ∧
         Error_Error rec = Some "bar: foo".
Proof.
  eexists. split; [reflexivity|].
  apply (E_chained_message []
           [arg_Kind IO; arg_error (New "foo"); arg_string "bar"] [] _ eq_refl).
Defined.

(** X10: wrapping keeps the root cause: [Cause] of what E returns is [Cause]
    of the last error argument. *)
Theorem E_keeps_root_cause (h : heap) (args : list arg) (h' : heap) (r : error) :
  E h args = Some (h', r) → Cause r = Cause (last_error args).
Proof.
  intros HE.
  destruct (E_result_cases _ _ _ _ HE) as [[-> Hnone]|(rec & -> & Hc & _)].
  - unfold last_error. by rewrite Hnone.
  - rewrite <- Hc. by destruct rec.
Qed.

Lemma E_keeps_root_cause_witness :
  let inner := mkError IO (New "foo") "io" None in
  ∃ r, E [] [arg_error (ptr_Error inner); arg_string "ctx"] = Some ([], r) ∧
       Cause r = Some (New "foo").
Proof.
  intros inner. eexists. split; [reflexivity|].
  apply (E_keeps_root_cause []
           [arg_error (ptr_Error inner); arg_string "ctx"] [] _ eq_refl).
Defined.

(** X11: what [Cause] returns is never a value of type [*Error], nor any
    other value with a method [Cause]. *)
Theorem Cause_returns_no_causer (x r : error) :
  Cause x = Some r →
  is_causer r = false ∧ (∀ e, r ≠ ptr_Error e) ∧ r ≠ nil_ptr_Error.
Proof.
  intros [Hr _]%Cause_result. split; [done|].
  split; [intros e -> | intros ->]; done.
Qed.

Lemma Cause_returns_no_causer_witness :
  let x := ptr_Error (mkError IO (foreign_causer "wrapped" (New "foo")) "io" None) in
  Cause x = Some (New "foo") ∧ is_causer (New "foo") = false.
Proof.
  intros x. split; [reflexivity|].
  exact (proj1 (Cause_returns_no_causer x (New "foo") eq_refl)).
Defined.

(** X12: a record built with a Kind other than Unknown as the last Kind
    argument is of that kind and of no other, whatever it wraps. *)
Theorem IsKind_of_E (h : heap) (args : list arg) (h' : heap) (rec : Error) (k : Kind) :
  E h args = Some (h', ptr_Error rec) →
  last_Kind args ≠ Unknown →
  IsKind (ptr_Error rec) k = Some (bool_decide (k = last_Kind args)).
Proof.
  intros (_ & _ & Hk & _)%E_fields Hne. simpl.
  apply Z.eqb_neq in Hne. rewrite Hne in Hk. rewrite Hk. f_equal.
  destruct (Z.eqb_spec (last_Kind args) k) as [<-|Hk'].
  - by rewrite bool_decide_eq_true_2.
  - by rewrite bool_decide_eq_false_2.
Qed.

Lemma IsKind_of_E_witness :
  let inner := mkError IO (New "hi") "" None in
  ∃ rec, E [] [arg_Kind Duplicated; arg_string "hi"; arg_error (ptr_Error inner)]
         = Some ([], ptr_Error rec) ∧
         IsKind (ptr_Error rec) Duplicated = Some true ∧
         IsKind (ptr_Error rec) IO = Some false.
Proof.
  intros inner. eexists. split; [reflexivity|]. split.
  - apply (IsKind_of_E []
             [arg_Kind Duplicated; arg_string "hi"; arg_error (ptr_Error inner)]
             [] _ Duplicated eq_refl). discriminate.
  - apply (IsKind_of_E []
             [arg_Kind Duplicated; arg_string "hi"; arg_error (ptr_Error inner)]
             [] _ IO eq_refl). discriminate.
Defined.

(** X13: wrapping never loses a classification or the metadata: over a
    record whose kind is not Unknown, E returns a record whose kind is not
    Unknown; over a record with metadata, a record with metadata. *)
Theorem E_keeps_classified (h : heap) (args : list arg) (h' : heap) (rec w : Error) :
  E h args = Some (h', ptr_Error rec) →
  e_cause rec = ptr_Error w →
  (e_Kind w ≠ Unknown → e_Kind rec ≠ Unknown) ∧
  (e_Meta w ≠ None → e_Meta rec ≠ None).
Proof.
  intros (_ & Hc & Hk & _ & Hm)%E_fields Hw. rewrite <- Hc, Hw in Hk, Hm.
  simpl in Hk, Hm. split.
  - intros Hne. destruct (Z.eqb_spec (last_Kind args) Unknown); congruence.
  - intros Hne. destruct (last (metas_of args)) as [[[l|]|c]|];
      try congruence.
    destruct Hm as (l & -> & _). done.
Qed.

Lemma E_keeps_classified_witness :
  let inner := mkError IO (New "foo") "io" (Some 0%nat) in
  ∃ rec, E [{[ "a" := VInt 1 ]}]
           [arg_error (ptr_Error inner); arg_Kind Unknown; arg_MetaData None]
         = Some ([{[ "a" := VInt 1 ]}], ptr_Error rec) ∧
         e_Kind rec ≠ Unknown ∧ e_Meta rec ≠ None.
Proof.
  intros inner. eexists. split; [reflexivity|].
  destruct (E_keeps_classified [{[ "a" := VInt 1 ]}]
              [arg_error (ptr_Error inner); arg_Kind Unknown; arg_MetaData None]
              [{[ "a" := VInt 1 ]}] _ inner eq_refl eq_refl) as [Hk Hm].
  split; [apply Hk | apply Hm]; discriminate.
Defined.

(** X14: the status code of a record built without a Kind over another
    record is the status code of that record. *)
Theorem E_keeps_StatusCode (h : heap) (args : list arg) (h' : heap) (rec w : Error) :
  E h args = Some (h', ptr_Error rec) →
  e_cause rec = ptr_Error w →
  last_Kind args = Unknown →
  Error_StatusCode rec = Error_StatusCode w.
Proof.
  intros (_ & Hc & Hk & _)%E_fields Hw Hu. rewrite <- Hc, Hw, Hu in Hk.
  unfold Error_StatusCode. by rewrite Hk.
Qed.

Lemma E_keeps_StatusCode_witness :
  let inner := mkError NotExist (New "no rows") "user not found" None in
  ∃ rec, E [] [arg_error (ptr_Error inner); arg_string "loading profile"]
         = Some ([], ptr_Error rec) ∧
         Error_StatusCode rec = StatusNotFound.
Proof.
  intros inner. eexists. split; [reflexivity|].
  apply (E_keeps_StatusCode []
           [arg_error (ptr_Error inner); arg_string "loading profile"]
           [] _ inner eq_refl eq_refl eq_refl).
Defined.

(** ** E and the heap *)

(** X15: E never writes to a map that existed before the call: every map of
    the heap is still there with the same contents, and the heap grows by
    one map for each plain map among the arguments. *)
Theorem E_heap_grows_only (h : heap) (args : list arg) (h' : heap) (r : error) :
  E h args = Some (h', r) →
  (∀ l m, h !! l = Some m → h' !! l = Some m) ∧
  length h' = (length h + length (maps_of args))%nat.
Proof.
  intros (e & Hscan & _)%E_inv.
  apply E_scan_fields in Hscan as (_ & _ & _ & -> & _). split.
  - intros l m Hl. by apply lookup_app_l_Some.
  - by rewrite length_app, length_fmap.
Qed.

Lemma E_heap_grows_only_witness :
  let h := [{[ "a" := VInt 1 ]}] in
  ∃ h' r, E h [arg_error (New "foo"); arg_map (Some {[ "b" := VNil ]})]
          = Some (h', r) ∧
          h' !! 0%nat = Some {[ "a" := VInt 1 ]} ∧ length h' = 2%nat.
Proof.
  intros h. eexists _, _. split; [reflexivity|].
  destruct (E_heap_grows_only h
              [arg_error (New "foo"); arg_map (Some {[ "b" := VNil ]})]
              _ _ eq_refl) as [Hold Hlen].
  split; [by apply Hold | exact Hlen].
Defined.

(** ** The order of the arguments *)

Lemma E_arg_comm (st : heap * Error) (a b : arg) :
  same_field a b = false →
  (E_arg st a ≫= λ st', E_arg st' b) = (E_arg st b ≫= λ st', E_arg st' a).
Proof.
  destruct st as [h [k c s m]].
  destruct a as [?|?|?|?|[]|], b as [?|?|?|?|[]|]; simpl; done.
Qed.

(** X16: the order of two neighbouring arguments that are stored in
    different fields, or of which one is not stored at all, is without
    effect on what E returns, on the heap it leaves, and on whether it
    faults. *)
Theorem E_args_commute (h : heap) (l1 l2 : list arg) (a b : arg) :
  same_field a b = false →
  E h (l1 ++ a :: b :: l2) = E h (l1 ++ b :: a :: l2).
Proof.
  intros Hab. unfold E. rewrite !E_scan_app.
  destruct (E_scan (h, zero_Error) l1) as [st|]; simpl; [|done].
  pose proof (E_arg_comm st a b Hab) as Hcomm.
  destruct (E_arg st a) as [sta|], (E_arg st b) as [stb|]; simpl in *.
  - destruct (E_arg sta b) as [st1|], (E_arg stb a) as [st2|];
      simpl in *; by simplify_eq.
  - by destruct (E_arg sta b).
  - by destruct (E_arg stb a).
  - done.
Qed.

Lemma E_args_commute_witness :
  E [] [arg_error (New "foo"); arg_string "network latency"; arg_Kind IO]
  = E [] [arg_error (New "foo"); arg_Kind IO; arg_string "network latency"].
Proof.
  apply (E_args_commute [] [arg_error (New "foo")] []
           (arg_string "network latency") (arg_Kind IO)).
  reflexivity.
Defined.

Lemma E_scan_filter_recognised (args : list arg) (st : heap * Error) :
  E_scan st args = E_scan st (List.filter recognised args).
Proof.
  revert st. induction args as [|a args IH]; intros st; [done|].
  cbn [List.filter]. destruct (recognised a) eqn:Ha.
  - simpl. destruct (E_arg st a) as [st'|]; simpl; [apply IH | done].
  - simpl. destruct st as [h e].
    destruct a as [?|?|?|?|[]|]; try done; simpl; apply IH.
Qed.

(** X17: arguments that no case of the type switch takes, nil interface
    values among them, are ignored: E returns what it returns without
    them. *)
Theorem E_ignores_unrecognised (h : heap) (args : list arg) :
  E h args = E h (List.filter recognised args).
Proof. unfold E. by rewrite <- E_scan_filter_recognised. Qed.

(** ** Wrapping a record again *)

(** X18: E on a record alone returns a record around it that has the same
    kind and the same metadata (the same map), and whose chained message,
    short message, root cause, kind test, status code and serialized form
    (whatever the encoder) are those of the record it wraps. *)
Theorem E_rewrap_transparent (h : heap) (w : Error) :
  let rec := mkError (e_Kind w) (ptr_Error w) "" (e_Meta w) in
  E h [arg_error (ptr_Error w)] = Some (h, ptr_Error rec) ∧
  Error_Error rec = Error_Error w ∧
  Msg rec = Msg w ∧
  Cause (ptr_Error rec) = Cause (ptr_Error w) ∧
  (∀ k, IsKind (ptr_Error rec) k = IsKind (ptr_Error w) k) ∧
  Error_StatusCode rec = Error_StatusCode w ∧
  (∀ json_text json_meta,
     MarshalJSON json_text json_meta h rec = MarshalJSON json_text json_meta h w).
Proof.
  intros rec.
  assert (Msg rec = Msg w) as HMsg by by apply Msg_empty_message.
  split; [reflexivity|]. split.
  { rewrite error_Error_unfold. unfold rec. cbn [e_cause e_s].
    change (error_Error (ptr_Error w)) with (Error_Error w).
    by destruct (Error_Error w). }
  split; [done|]. split; [by destruct w|]. split; [done|].
  split; [done|]. intros json_text json_meta. unfold MarshalJSON.
  by rewrite HMsg.
Qed.

(** ** Serializing what E returns *)

Lemma meta_live_read (h : heap) (m : MetaData) :
  meta_live h m = true → is_Some (heap_read h m).
Proof.
  destruct m as [l|]; unfold meta_live, heap_read; [|by eexists].
  intros Hl%bool_decide_eq_true.
  destruct (lookup_lt_is_Some_2 h l Hl) as [x Hx].
  exists (Some x). simpl. unfold heap, loc in *.
  by rewrite (Hx : @lookup nat (gmap string value) _ _ l h = Some x).
Qed.

Lemma meta_live_mono (h ext : heap) (m : MetaData) :
  meta_live h m = true → meta_live (h ++ ext) m = true.
Proof.
  destruct m as [l|]; simpl; [|done].
  intros Hl%bool_decide_eq_true. apply bool_decide_eq_true.
  rewrite length_app. lia.
Qed.

Lemma last_meta_by_ref_elem (args : list arg) (m : MetaData) :
  last (metas_of args) = Some (by_ref m) → arg_MetaData m ∈ args.
Proof.
  intros Hl%last_Some_elem_of. unfold metas_of in Hl.
  apply list_elem_of_omap in Hl as (a & Ha & Hf).
  by destruct a; simplify_eq.
Qed.

Lemma arg_live_elem (h : heap) (args : list arg) (a : arg) :
  forallb (arg_live h) args = true → a ∈ args → arg_live h a = true.
Proof.
  intros H Hin. rewrite forallb_forall in H. by apply H, list_elem_of_In.
Qed.

(** X19: serializing a record E returns adds no fault of its own: when the
    last error among the arguments renders and the metadata among the
    arguments, given or carried by a record, are maps of the heap,
    [MarshalJSON] of the record returns its text if the metadata of the
    record is nil or empty, and otherwise returns, returns an error or
    panics as the encoder does on the map of the record. *)
Theorem E_result_marshals (json_text : string → string)
    (json_meta : heap → gmap string value → outcome string)
    (h : heap) (args : list arg) (h' : heap) (rec : Error) (c : string) :
  E h args = Some (h', ptr_Error rec) →
  error_Error (last_error args) = Some c →
  forallb (arg_live h) args = true →
  ∃ detail,
    heap_read h' (e_Meta rec) = Some detail ∧
    shape (MarshalJSON json_text json_meta h' rec) =
      match detail with
      | Some m => if decide (m = ∅) then returns tt else shape (json_meta h' m)
      | None => returns tt
      end.
Proof.
  intros HE Hc Hlive.
  destruct (E_fields _ _ _ _ HE) as (Hs & Hcause & _ & Hh & Hm).
  assert (is_Some (Msg rec)) as [msg Hmsg].
  { eexists. apply Msg_before_colon.
    rewrite error_Error_unfold, Hcause, Hc. reflexivity. }
  assert (meta_live h (wrapped_Meta (last_error args)) = true) as Hwrapped.
  { destruct (last_error_elem args) as [[-> _]|[Hin _]]; [done|].
    apply (arg_live_elem h _ _ Hlive) in Hin.
    by destruct (last_error args). }
  assert (is_Some (heap_read h' (e_Meta rec))) as [detail Hdetail].
  { destruct (last (metas_of args)) as [[[l|]|cp]|] eqn:Hlast.
    - rewrite Hm. apply meta_live_read. rewrite Hh. apply meta_live_mono.
      apply last_meta_by_ref_elem in Hlast.
      by apply (arg_live_elem h _ _ Hlive) in Hlast.
    - rewrite Hm. apply meta_live_read. rewrite Hh. by apply meta_live_mono.
    - destruct Hm as (l & -> & Hl & _). simpl. rewrite Hl. by eexists.
    - rewrite Hm. apply meta_live_read. rewrite Hh. by apply meta_live_mono. }
  exists detail. split; [done|].
  rewrite MarshalJSON_form, Hmsg, Hdetail. unfold detail_text.
  destruct detail as [m|]; [|reflexivity].
  destruct (decide (m = ∅)); [reflexivity|].
  destruct (json_meta h' m); reflexivity.
Qed.

Lemma E_result_marshals_witness :
  let h := [{[ "foo" := VString "bar" ]}] in
  ∃ rec, E h [arg_error (New "foo"); arg_string "network latency";
              arg_Kind IO; arg_MetaData (Some 0%nat)]
         = Some (h, ptr_Error rec) ∧
         shape (MarshalJSON quoted_text test_meta h rec) = returns tt.
Proof.
  intros h. eexists. split; [reflexivity|].
  destruct (E_result_marshals quoted_text test_meta h
              [arg_error (New "foo"); arg_string "network latency";
               arg_Kind IO; arg_MetaData (Some 0%nat)] h _ "foo"
              eq_refl eq_refl eq_refl) as (detail & Hdetail & Hshape).
  rewrite Hshape. injection Hdetail as <-. reflexivity.
Defined.
(** ** Sharing and copying of metadata *)

Lemma heap_store_lookup_ne (h : heap) (l0 l : loc) (k : string) (v : value) :
  l0 ≠ l → heap_store h l0 k v !! l = h !! l.
Proof.
  intros Hne. unfold heap_store.
  destruct (h !! l0) as [m0|]; [|done].
  by apply list_lookup_insert_ne.
Qed.

Lemma heap_store_lookup_eq (h : heap) (l : loc) (k : string) (v : value)
    (m : gmap string value) :
  h !! l = Some m → heap_store h l k v !! l = Some (<[k := v]> m).
Proof.
  intros Hl. unfold heap_store.
  rewrite Hl. apply list_lookup_insert_eq. by eapply lookup_lt_Some.
Qed.

(** X20: a plain map given to E is copied one level deep: the record holds
    a fresh map with the entries of the argument, so no later store of a key
    into a map that existed before the call changes the entries of the
    record; but a value that is itself a map is copied as the reference it
    is, so a later store into such a nested map is read through the
    record. *)
Theorem E_plain_map_copied_shallowly (h : heap) (args : list arg) (h' : heap)
    (rec : Error) (c : option (gmap string value))
    (l0 : loc) (k : string) (v : value) :
  E h args = Some (h', ptr_Error rec) →
  last (metas_of args) = Some (by_copy c) →
  (l0 < length h)%nat →
  heap_read h' (e_Meta rec) = Some (Some (default ∅ c)) ∧
  heap_read (heap_store h' l0 k v) (e_Meta rec) = Some (Some (default ∅ c)) ∧
  (∀ key m0, default ∅ c !! key = Some (VMap l0) → h' !! l0 = Some m0 →
             nested_read h' (e_Meta rec) key = Some m0 ∧
             nested_read (heap_store h' l0 k v) (e_Meta rec) key
             = Some (<[k := v]> m0)).
Proof.
  intros (_ & _ & _ & _ & Hm)%E_fields Hlast Hl0. rewrite Hlast in Hm.
  destruct Hm as (l & -> & Hl & Hfresh).
  assert (l0 ≠ l) as Hne.
  { intros ->. apply lookup_ge_None in Hfresh. lia. }
  assert (heap_read h' (Some l) = Some (Some (default ∅ c))) as Hread.
  { unfold heap_read. by rewrite Hl. }
  assert (heap_read (heap_store h' l0 k v) (Some l)
          = Some (Some (default ∅ c))) as Hread'.
  { unfold heap_read. by rewrite (heap_store_lookup_ne h' l0 l k v Hne), Hl. }
  split; [done|]. split; [done|].
  intros key m0 Hkey Hm0. unfold nested_read. rewrite Hread, Hread', Hkey.
  split; [done|]. by apply heap_store_lookup_eq.
Qed.

Lemma E_plain_map_copied_shallowly_witness :
  let h := [{[ "a" := VInt 1 ]}] in
  let arg := {[ "a" := VInt 1; "inner" := VMap 0%nat ]} in
  ∃ h' rec, E h [arg_error (New "foo"); arg_map (Some arg)]
            = Some (h', ptr_Error rec) ∧
            heap_read (heap_store h' 0%nat "a" (VInt 2)) (e_Meta rec)
            = Some (Some arg) ∧
            nested_read (heap_store h' 0%nat "a" (VInt 2)) (e_Meta rec) "inner"
            = Some {[ "a" := VInt 2 ]}.
Proof.
  intros h arg. eexists _, _. split; [reflexivity|].
  assert (0 < length h)%nat as Hlt by (simpl; lia).
  destruct (E_plain_map_copied_shallowly h
              [arg_error (New "foo"); arg_map (Some arg)]
              _ _ (Some arg) 0%nat "a" (VInt 2) eq_refl eq_refl Hlt)
    as (_ & Hflat & Hnested).
  split; [exact Hflat|].
  destruct (Hnested "inner" {[ "a" := VInt 1 ]} eq_refl eq_refl) as [_ Hn].
  rewrite Hn. reflexivity.
Defined.
(** X21: a MetaData given to E is not copied: the record holds the caller's
    map itself, so a later store into that map is read through the
    record. *)
Theorem E_MetaData_shared (h : heap) (args : list arg) (h' : heap)
    (rec : Error) (l : loc) (m : gmap string value) (k : string) (v : value) :
  E h args = Some (h', ptr_Error rec) →
  last (metas_of args) = Some (by_ref (Some l)) →
  h' !! l = Some m →
  e_Meta rec = Some l ∧
  heap_read (heap_store h' l k v) (e_Meta rec) = Some (Some (<[k := v]> m)).
Proof.
  intros (_ & _ & _ & _ & Hm)%E_fields Hlast Hl. rewrite Hlast in Hm.
  split; [done|]. rewrite Hm. unfold heap_read.
  by rewrite (heap_store_lookup_eq h' l k v m Hl).
Qed.

Lemma E_MetaData_shared_witness :
  let h := [{[ "a" := VInt 1 ]}] in
  ∃ rec, E h [arg_error (New "foo"); arg_MetaData (Some 0%nat)]
         = Some (h, ptr_Error rec) ∧
         heap_read (heap_store h 0%nat "a" (VInt 2)) (e_Meta rec)
         = Some (Some {[ "a" := VInt 2 ]}).
Proof.
  intros h. eexists. split; [reflexivity|].
  destruct (E_MetaData_shared h
              [arg_error (New "foo"); arg_MetaData (Some 0%nat)]
              h _ 0%nat {[ "a" := VInt 1 ]} "a" (VInt 2)
              eq_refl eq_refl eq_refl) as [_ Hread].
  rewrite Hread. reflexivity.
Defined.
